(** * helpers_jpeg: the JPEG segment scanner and the corruption engine

    A shallow embedding of [src/helpers_jpeg.py]: [read_structure], the
    nested [flipbits] and [mosh_jpeg_data], followed by the properties the
    specification states about them.

    Python integers are [Z], a [bytes] object is a list of [Byte.byte],
    exceptions are an explicit error monad, the generator [read_structure]
    is the list of tuples it yields together with the way it ended, and
    the global [random] module is a tape of raw draws threaded through the
    code.  [print] has no model: with [debug] set only the extra reads of
    the debug blocks (which can raise) are kept. *)

From Stdlib Require Import String ZArith List Bool Lia.
From Stdlib Require Import Strings.Byte.
Import ListNotations.

Local Open Scope Z_scope.

(* ================================================================== *)
(** ** Python values and builtins used by the source *)

Module Py.

(** The [ValueError]s the code can meet. *)
Inductive value_error : Type :=
| EmptyRange                 (* random.randint(a, b) with b < a *)
| ByteOutOfRange             (* bytearray item outside range(256) *)
| NoValidData (tries : Z).   (* raised on the last line of mosh_jpeg_data *)

Inductive exn : Type :=
| IndexError
| ValueError (why : value_error).

Inductive result (A : Type) : Type :=
| Ok (a : A)
| Raise (e : exn).
Arguments Ok {A} a.
Arguments Raise {A} e.

Definition bind {A B} (r : result A) (k : A -> result B) : result B :=
  match r with
  | Ok a => k a
  | Raise e => Raise e
  end.

Definition bytes := list byte.

(** [len(x)] *)
Definition len {A} (l : list A) : Z := Z.of_nat (length l).

(** The integer a byte of a [bytes] object reads as. *)
Definition ord (b : byte) : Z := Z.of_N (Byte.to_N b).

(** [l[i]]: a negative index counts from the end, anything outside the
    object raises [IndexError]. *)
Definition getitem {A} (l : list A) (i : Z) : result A :=
  let j := if i <? 0 then i + len l else i in
  if j <? 0 then Raise IndexError
  else match nth_error l (Z.to_nat j) with
       | Some x => Ok x
       | None => Raise IndexError
       end.

(** How a slice bound is brought into [0 .. len]. *)
Definition clamp (n k : Z) : Z :=
  if k <? 0 then Z.max 0 (k + n) else Z.min k n.

(** [l[lo:hi]] *)
Definition slice {A} (l : list A) (lo hi : Z) : list A :=
  let a := clamp (len l) lo in
  let b := clamp (len l) hi in
  firstn (Z.to_nat (b - a)) (skipn (Z.to_nat a) l).

(** [l[lo:]] *)
Definition slice_from {A} (l : list A) (lo : Z) : list A :=
  slice l lo (len l).

Fixpoint bytes_eqb (x y : bytes) : bool :=
  match x, y with
  | [], [] => true
  | a :: x', b :: y' => Byte.eqb a b && bytes_eqb x' y'
  | _, _ => false
  end.

(** [l.endswith(suffix)] *)
Definition endswith (l suffix : bytes) : bool :=
  (length suffix <=? length l)%nat
  && bytes_eqb (skipn (length l - length suffix) l) suffix.

(** [l.startswith(prefix)] *)
Definition startswith (l prefix : bytes) : bool :=
  bytes_eqb (firstn (length prefix) l) prefix.

Fixpoint index_from (b : byte) (l : bytes) (k : Z) : Z :=
  match l with
  | [] => -1
  | x :: t => if Byte.eqb x b then k else index_from b t (k + 1)
  end.

(** [l.find(bytes([b]), start)]: the lowest index at or after [start]
    that holds [b], or -1. *)
Definition find (l : bytes) (b : byte) (start : Z) : Z :=
  let a := clamp (len l) start in
  index_from b (skipn (Z.to_nat a) l) a.

Fixpoint update {A} (l : list A) (n : nat) (x : A) : list A :=
  match l, n with
  | [], _ => []
  | _ :: t, O => x :: t
  | y :: t, S n' => y :: update t n' x
  end.

(** [l[i] = v] on a [bytearray]: the index is checked first, then the
    value must be in range(256). *)
Definition setitem (l : bytes) (i v : Z) : result bytes :=
  let j := if i <? 0 then i + len l else i in
  if (j <? 0) || (len l <=? j) then Raise IndexError
  else if v <? 0 then Raise (ValueError ByteOutOfRange)
  else match Byte.of_N (Z.to_N v) with
       | Some b => Ok (update l (Z.to_nat j) b)
       | None => Raise (ValueError ByteOutOfRange)
       end.

(** [range(n)] *)
Definition range (n : Z) : list Z := map Z.of_nat (seq 0 (Z.to_nat n)).

(** A [for] loop whose body only reads: it stops at the first raise. *)
Fixpoint for_each {A} (l : list A) (body : A -> result unit) : result unit :=
  match l with
  | [] => Ok tt
  | x :: t => bind (body x) (fun _ => for_each t body)
  end.

(** The truth value of a list that may be [None]. *)
Definition truthy {A} (m : option (list A)) : bool :=
  match m with
  | Some (_ :: _) => true
  | _ => false
  end.

End Py.

Import Py.

Declare Scope py_scope.
Delimit Scope py_scope with py.
Notation "x <- c ;; k" := (Py.bind c (fun x => k))
  (at level 61, c at next level, right associativity) : py_scope.
Notation "c ;;; k" := (Py.bind c (fun _ => k))
  (at level 61, right associativity) : py_scope.
Local Open Scope py_scope.

(* ================================================================== *)
(** ** Marker constants (lines 41-66) *)

Definition SOI   : Z := 0xd8.
Definition APP0  : Z := 0xe0.
Definition APP15 : Z := 0xef.
Definition SOF0  : Z := 0xc0.
Definition SOF2  : Z := 0xc2.
Definition SOF1  : Z := 0xc1.
Definition SOF9  : Z := 0xc9.
Definition HQT   : Z := 0xc4.
Definition DQT   : Z := 0xdb.
Definition SOS   : Z := 0xda.
Definition EOI   : Z := 0xd9.
Definition COM   : Z := 0xFE.

(** The End-Of-Image marker as the two bytes [b'\xff\xd9']. *)
Definition eoi_bytes : bytes := [xff; xd9].
Definition soi_bytes : bytes := [xff; xd8].

(* ================================================================== *)
(** ** read_structure (lines 68-380) *)

(** The second element of a yielded tuple.  The text of every branch is
    the source's; for an application marker the source formats
    ['APP%d %r'] from the marker number and the identifier bytes, which
    are kept here unformatted. *)
Inductive description : Type :=
| Text (s : string)
| AppText (n : Z) (ident : bytes).

(** The 4-tuple [marker, descr, moveon, segdata] of line 380. *)
Record segment : Type := mk_segment {
  marker  : Z;
  descr   : description;
  moveon  : Z;
  segdata : bytes
}.

(** Lines 204-299: the description chosen in the branch for markers that
    code their length, in the order of the [elif] chain. *)
Definition describe (jpeg_data : bytes) (i marker : Z) : description :=
  if marker =? COM then Text "comment"
  else if (marker >=? APP0) && (marker <=? APP15) then
    AppText (marker - 0xe0) (slice jpeg_data (i + 4) (find jpeg_data x00 (i + 5)))
  else if marker =? HQT then Text "huffman tables"
  else if marker =? DQT then Text "quantization tables"
  else if marker =? SOF0 then Text "start of frame, baseline sequential, huffman"
  else if marker =? SOF2 then Text "start of frame, progressive, huffman"
  else if marker =? SOF1 then Text "start of frame, extended sequential, huffman"
  else if marker =? SOF9 then Text "start of frame, extended sequential, arithmetic"
  else if marker =? 0xc3 then Text "(start of frame? -) lossless"
  else if marker =? 0xc5 then Text "(start of frame? -) differential sequential DCI"
  else if marker =? 0xc6 then Text "(start of frame? -) differential progressive DCI"
  else if marker =? 0xc7 then Text "(start of frame? -) differential lossless"
  else if marker =? 0xc8 then Text "JPEG extensions"
  else if marker =? 0xca then Text "(start of frame? -) extended progressive DCT"
  else if marker =? 0xcb then Text "(start of frame? -) extended lossless"
  else if marker =? 0xcc then Text "arithmetic conditioning table"
  else if (marker >=? 0xf0) && (marker <=? 0xf6) then
    Text "JPEG extensions, ITU T.84/IEC 10918-3"
  else if marker =? 0xf7 then Text "JPEG LS - SOF48"
  else if marker =? 0xf8 then Text "JPEG LS - LSE"
  else if (marker >=? 0xf9) && (marker <=? 0xffd) then
    Text "JPEG extensions, ITU T.84/IEC 10918-3"
  else if (marker >=? 0x4f) && (marker <=? 0x6f) then
    Text "JPEG extensions, JPEG2000?"
  else if (marker >=? 0x90) && (marker <=? 0x93) then
    Text "JPEG extensions, JPEG2000?"
  else if marker =? 0x51 then Text "JPEG extensions, JPEG2000?, image and tile size"
  else if marker =? 0x52 then Text "JPEG extensions, JPEG2000?, coding style default"
  else if marker =? 0x53 then Text "JPEG extensions, JPEG2000?, coding style component"
  else if marker =? 0x5e then Text "JPEG extensions, JPEG2000?, region of interest"
  else if marker =? 0x5c then Text "JPEG extensions, JPEG2000?, quantization default"
  else if marker =? 0x5d then Text "JPEG extensions, JPEG2000?, quantization component"
  else if marker =? 0x5f then Text "JPEG extensions, JPEG2000?, progression order change"
  else if marker =? 0x55 then Text "JPEG extensions, JPEG2000?, tile-part lengths"
  else if marker =? 0x57 then Text "JPEG extensions, JPEG2000?, packet length (main header)"
  else if marker =? 0x58 then
    Text "JPEG extensions, JPEG2000?, packet length (tile-part header)"
  else if marker =? 0x60 then
    Text "JPEG extensions, JPEG2000?, packed packet headers (main header)"
  else if marker =? 0x61 then
    Text "JPEG extensions, JPEG2000?, packet packet headers (tile-part header)"
  else if marker =? 0x91 then Text "JPEG extensions, JPEG2000?, start of packet"
  else if marker =? 0x92 then Text "JPEG extensions, JPEG2000?, end of packet header"
  else if marker =? 0x63 then Text "JPEG extensions, JPEG2000?, component reg"
  else if marker =? 0x64 then Text "JPEG extensions, JPEG2000?, comment"
  else if marker =? 0xfd then Text "reserved for JPEG extensions"
  else if marker =? SOS then Text "SOS Start Of Scan"
  else Text "unknown marker".

(** Lines 161-190: the reads of the Start-Of-Scan header.  The values
    only feed [print]; the reads themselves can raise. *)
Definition sos_header (jpeg_data : bytes) (i : Z) : result unit :=
  hi <- getitem jpeg_data (i + 2) ;;
  lo <- getitem jpeg_data (i + 3) ;;
  let datasize := Z.shiftl (ord hi) 8 + ord lo in
  num_components <- getitem jpeg_data (i + 4) ;;
  for_each (range (ord num_components)) (fun ci =>
    cid <- getitem jpeg_data (i + 4 + 2 * ci) ;;
    htab <- getitem jpeg_data (i + 4 + 2 * ci + 1) ;;
    let htab_ac := Z.shiftr (Z.land (ord htab) 0xf0) 4 in
    let htab_dc := Z.land (ord htab) 0x0f in
    Ok tt).

(** Lines 108-309: what each branch of the marker dispatch sets, as
    [(descr, moveon, segdata)].  The fixed-size branches leave [segdata]
    unassigned; nothing reads it before line 378 assigns it (the debug
    block reads it only for markers 0xe0, 0xc0 and 0xfe, which all code
    their length), so the empty object stands for it there. *)
Definition dispatch (jpeg_data : bytes) (i marker : Z)
  : result (description * Z * bytes) :=
  if marker =? SOI then Ok (Text "Start Of Image", 2, [])
  else if marker =? EOI then Ok (Text "End Of Image", 2, [])
  else if marker =? 0xd0 then Ok (Text "restart 0", 2, [])
  else if marker =? 0xd1 then Ok (Text "restart 1", 2, [])
  else if marker =? 0xd2 then Ok (Text "restart 2", 2, [])
  else if marker =? 0xd3 then Ok (Text "restart 3", 2, [])
  else if marker =? 0xd4 then Ok (Text "restart 4", 2, [])
  else if marker =? 0xd5 then Ok (Text "restart 5", 2, [])
  else if marker =? 0xd6 then Ok (Text "restart 6", 2, [])
  else if marker =? 0xd7 then Ok (Text "restart 7", 2, [])
  else if (marker >=? 0x30) && (marker <=? 0x3f) then Ok (Text "reserved JP2", 2, [])
  else if marker =? 0xdd then Ok (Text "restart interval", 6, [])
  else if marker =? SOS then
    sos_header jpeg_data i ;;;
    if endswith jpeg_data eoi_bytes
    then Ok (Text "start of scan", (len jpeg_data - i) - 2, slice jpeg_data i (-2))
    else Ok (Text "start of scan", len jpeg_data - i, slice_from jpeg_data i)
  else
    let descr := describe jpeg_data i marker in
    hi <- getitem jpeg_data (i + 2) ;;
    lo <- getitem jpeg_data (i + 3) ;;
    let datasize := Z.shiftl (ord hi) 8 + ord lo in
    let segdata := slice jpeg_data (i + 4) (i + 2 + datasize) in
    Ok (descr, datasize + 2, segdata).

(** Reading the given indices of [l], one after the other. *)
Definition reads (l : bytes) (indices : list Z) : result unit :=
  for_each indices (fun k => getitem l k ;;; Ok tt).

(** Lines 319-376, run when [debug] is set: the selective parsing of
    APP0 and SOF0 payloads, reduced to the reads it makes. *)
Definition debug_block (marker : Z) (segdata : bytes) : result unit :=
  if marker =? 0xe0 then
    if bytes_eqb (slice segdata 0 5) [x4a; x46; x49; x46; x00]
    then reads segdata [7; 5; 6; 8; 9; 10; 11; 12; 13]
    else Ok tt
  else if marker =? SOF0 then
    reads segdata [0; 1; 2; 3; 4] ;;;
    comps <- getitem segdata 5 ;;
    for_each (range (ord comps)) (fun ci =>
      reads segdata [6 + ci * 3 + 0; 6 + ci * 3 + 1; 6 + ci * 3 + 2])
  else Ok tt.

(** One pass through the body of the [while] loop at offset [i]:
    [Ok None] is the [break] of line 97, [Ok (Some s)] the [yield] of
    line 380 (the cursor then moves on by [moveon s]). *)
Definition body (debug : bool) (jpeg_data : bytes) (i : Z)
  : result (option segment) :=
  b <- getitem jpeg_data i ;;
  if negb (ord b =? 0xff) then Ok None
  else
    m <- getitem jpeg_data (i + 1) ;;
    let marker := ord m in
    r <- dispatch jpeg_data i marker ;;
    let '(descr, moveon, local) := r in
    (if debug then debug_block marker local else Ok tt) ;;;
    let segdata := slice jpeg_data i (i + moveon) in
    Ok (Some (mk_segment marker descr moveon segdata)).

(** How the generator ends. *)
Inductive ending : Type :=
| Finished            (* the loop test [i < len(jpeg_data)] failed *)
| Stopped             (* the [break] of line 97 *)
| Raised (e : exn)    (* an exception left the generator *)
| OutOfFuel.          (* never the case, see [read_structure_fuel] *)

(** The [while] loop of line 84 from cursor [i]: the tuples yielded, in
    order, and the way the loop was left. *)
Fixpoint scan (fuel : nat) (debug : bool) (jpeg_data : bytes) (i : Z)
  : list segment * ending :=
  match fuel with
  | O => ([], OutOfFuel)
  | S fuel' =>
    if i <? len jpeg_data then
      match body debug jpeg_data i with
      | Raise e => ([], Raised e)
      | Ok None => ([], Stopped)
      | Ok (Some s) =>
        let '(rest, e) := scan fuel' debug jpeg_data (i + moveon s) in
        (s :: rest, e)
      end
    else ([], Finished)
  end.

(** Every pass moves the cursor on by at least 2, so one unit of fuel
    per byte (and one for the last test) is more than the loop uses. *)
Definition read_structure (jpeg_data : bytes) (debug : bool)
  : list segment * ending :=
  scan (S (length jpeg_data)) debug jpeg_data 0.

(** The segments a call yields, and the offset the cursor has reached
    after a run of them. *)
Definition yielded (r : list segment * ending) : list segment := fst r.
Definition how_ended (r : list segment * ending) : ending := snd r.

Definition advance (segs : list segment) : Z :=
  fold_right (fun s acc => moveon s + acc) 0 segs.

Definition reassemble (segs : list segment) : bytes :=
  concat (map segdata segs).

(* ================================================================== *)
(** ** The random module *)

(** [flipbits] draws from the global generator of [random].  The
    generator is a tape of raw draws: [randint] and [choice] reduce the
    next draw into the range asked for, so every tape is a run the
    generator could make and every run is some tape.  A tape that has
    run out keeps drawing 0. *)
Module Rand.

Definition tape := list Z.

Definition rand (A : Type) : Type := tape -> result (A * tape).

Definition ret {A} (a : A) : rand A := fun t => Ok (a, t).

Definition raise {A} (e : exn) : rand A := fun _ => Raise e.

Definition lift {A} (r : result A) : rand A :=
  fun t => match r with Ok a => Ok (a, t) | Raise e => Raise e end.

Definition bind {A B} (c : rand A) (k : A -> rand B) : rand B :=
  fun t => match c t with
           | Ok (a, t') => k a t'
           | Raise e => Raise e
           end.

Definition draw : rand Z :=
  fun t => match t with
           | [] => Ok (0, [])
           | r :: t' => Ok (r, t')
           end.

(** [random.randint(a, b)]: both ends included; an empty range raises
    [ValueError]. *)
Definition randint (a b : Z) : rand Z :=
  let width := b + 1 - a in
  if 0 <? width
  then bind draw (fun r => ret (a + r mod width))
  else raise (ValueError EmptyRange).

(** [random.choice(seq)] *)
Definition choice {A} (seq : list A) : rand A :=
  if len seq =? 0 then raise IndexError
  else bind draw (fun r => lift (getitem seq (r mod len seq))).

(** A loop body run [n] times on a value it updates. *)
Fixpoint times {A} (n : nat) (body : A -> rand A) (a : A) : rand A :=
  match n with
  | O => ret a
  | S n' => bind (body a) (times n' body)
  end.

End Rand.

Import Rand.

Declare Scope rand_scope.
Delimit Scope rand_scope with rand.
Notation "x <~ c ;; k" := (Rand.bind c (fun x => k))
  (at level 61, c at next level, right associativity) : rand_scope.
Local Open Scope rand_scope.

(* ================================================================== *)
(** ** flipbits (lines 426-459) *)

(** Line 447: the mask once filtered. *)
Definition filter_mask (mask : list Z) (skipfirstbytes : Z) (data : bytes)
  : list Z :=
  filter (fun index => (skipfirstbytes <? index) && (index <? len data)) mask.

(** Lines 455-457: one pass of the inner [for]. *)
Definition flip_bit (targetbyte : Z) (retdata : bytes) : rand bytes :=
  bitnum <~ randint 0 7 ;;
  old <~ lift (getitem retdata targetbyte) ;;
  lift (setitem retdata targetbyte (Z.lxor (ord old) (2 ^ bitnum))).

(** Lines 450-458: one pass of the [while] loop. *)
Definition flip_round (data : bytes) (howmanybits skipfirstbytes : Z)
  (mask : option (list Z)) (retdata : bytes) : rand bytes :=
  targetbyte <~ (if truthy mask
                 then choice (match mask with Some m => m | None => [] end)
                 else randint skipfirstbytes (len data - 1)) ;;
  times (Z.to_nat howmanybits) (flip_bit targetbyte) retdata.

Definition flipbits (data : bytes) (howmanytimes howmanybits skipfirstbytes : Z)
  (mask : option (list Z)) : rand bytes :=
  let retdata := data in
  let mask :=
    if truthy mask
    then option_map (fun m => filter_mask m skipfirstbytes data) mask
    else mask in
  times (Z.to_nat howmanytimes)
        (flip_round data howmanybits skipfirstbytes mask) retdata.

(* ================================================================== *)
(** ** mosh_jpeg_data (lines 384-507) *)

(** [range(a, b)] *)
Definition range2 (a b : Z) : list Z :=
  map (fun k => a + Z.of_nat k) (seq 0 (Z.to_nat (b - a))).

(** Lines 467-471: the mask built for a quantization-table segment. *)
Fixpoint extend_mask (n : nat) (i : Z) (mask : list Z) : list Z :=
  match n with
  | O => mask
  | S n' => let i := i + 1 in extend_mask n' i (mask ++ range2 i (i + 64))
  end.

Definition dqt_mask : list Z := extend_mask 4 4 [].

(** Lines 466-490: the body of the [for] over the yielded tuples; [ret]
    is the list the pieces are appended to. *)
Definition mosh_segment (typ : Z) (qt im : Z * Z) (ret : list bytes)
  (s : segment) : rand (list bytes) :=
  if marker s =? DQT then
    let mask := dqt_mask in
    if negb (Z.land typ 0x01 =? 0) then
      corrupted_segdata <~ flipbits (segdata s) (fst qt) (snd qt) 4 None ;;
      Rand.ret (ret ++ [corrupted_segdata])
    else Rand.ret (ret ++ [segdata s])
  else if marker s =? SOS then
    if negb (Z.land typ 0x02 =? 0) then
      corrupted_segdata <~ flipbits (segdata s) (fst im) (snd im) 20 None ;;
      Rand.ret (ret ++ [corrupted_segdata])
    else Rand.ret (ret ++ [segdata s])
  else if (marker s >=? 0xe1) && (marker s <=? 0xef) then Rand.ret ret
  else Rand.ret (ret ++ [segdata s]).

Fixpoint mosh_segments (typ : Z) (qt im : Z * Z) (segs : list segment)
  (ret : list bytes) : rand (list bytes) :=
  match segs with
  | [] => Rand.ret ret
  | s :: segs' =>
    ret' <~ mosh_segment typ qt im ret s ;;
    mosh_segments typ qt im segs' ret'
  end.

(** Lines 464-492: one candidate.  The generator is consumed as it
    yields, so an exception of [read_structure] surfaces after the
    tuples yielded before it have been handled. *)
Definition candidate (jpegdata : bytes) (typ : Z) (qt im : Z * Z) : rand bytes :=
  let '(segs, e) := read_structure jpegdata false in
  ret <~ mosh_segments typ qt im segs [] ;;
  match e with
  | Raised x => raise x
  | _ => Rand.ret (concat ret)
  end.

Section Mosh.

(** [Image.open(io.BytesIO(retdata)).load()] of the external decoder:
    [true] when it returns, [false] when it raises [IOError], the one
    exception the loop catches.  The import of line 423 is taken to
    succeed. *)
Variable decode : bytes -> bool.

(** Lines 462-507: the [while tries > 0] loop and the [raise] after
    it. *)
Fixpoint attempts (tries : nat) (jpegdata : bytes) (typ : Z) (qt im : Z * Z)
  (validate : bool) (validate_maxtries : Z) : rand bytes :=
  match tries with
  | O => raise (ValueError (NoValidData validate_maxtries))
  | S tries' =>
    retdata <~ candidate jpegdata typ qt im ;;
    if negb validate then Rand.ret retdata
    else if decode retdata then Rand.ret retdata
    else attempts tries' jpegdata typ qt im validate validate_maxtries
  end.

Definition mosh_jpeg_data (jpegdata : bytes) (typ : Z) (qt im : Z * Z)
  (validate : bool) (validate_maxtries : Z) : rand bytes :=
  attempts (Z.to_nat validate_maxtries) jpegdata typ qt im
           validate validate_maxtries.

End Mosh.


(* ================================================================== *)
(** ** Vocabulary of the specification *)

(** The big-endian 16-bit integer of two bytes. *)
Definition be16 (hi lo : byte) : Z := Z.shiftl (ord hi) 8 + ord lo.

(** The three size strategies of the marker dispatch, read off the
    [elif] chain: markers of a fixed size, Start-Of-Scan, and the rest,
    which code their length. *)
Definition fixed_size (marker : Z) : option Z :=
  if (marker =? SOI) || (marker =? EOI)
     || ((0xd0 <=? marker) && (marker <=? 0xd7))
     || ((0x30 <=? marker) && (marker <=? 0x3f))
  then Some 2
  else if marker =? 0xdd then Some 6
  else None.

Definition codes_length (marker : Z) : bool :=
  match fixed_size marker with
  | Some _ => false
  | None => negb (marker =? SOS)
  end.

(** How many bytes, counted from a segment start [i], the pass reads by
    index before it slices: 2 up to the marker; 4 up to the two length
    bytes of a segment that codes its length; for Start-Of-Scan 5 up to
    the component count [n] at [i + 4], and [4 + 2 * n] when [n] is not
    0, since the reads of component [ci] are at [i + 4 + 2 * ci] and
    [i + 4 + 2 * ci + 1] (lines 171 and 186), the first of them on the
    count byte itself. *)
Definition header_bytes (jpeg_data : bytes) (i : Z) : Z :=
  match getitem jpeg_data (i + 1) with
  | Raise _ => 2
  | Ok m =>
    match fixed_size (ord m) with
    | Some _ => 2
    | None =>
      if ord m =? SOS then
        match getitem jpeg_data (i + 4) with
        | Raise _ => 5
        | Ok n => Z.max 5 (4 + 2 * ord n)
        end
      else 4
    end
  end.

(** The segments [mosh_jpeg_data] strips, and those it hands on as they
    are whatever the mode. *)
Definition stripped (s : segment) : bool :=
  (0xe1 <=? marker s) && (marker s <=? 0xef).

Definition passed_through (s : segment) : bool :=
  negb (marker s =? DQT) && negb (marker s =? SOS) && negb (stripped s).

(** The first [n] candidates [mosh_jpeg_data] would build from a tape,
    each from where the one before left the tape; the list ends early
    when building a candidate raises. *)
Fixpoint candidates (n : nat) (jpegdata : bytes) (typ : Z) (qt im : Z * Z)
  (t : tape) : list bytes :=
  match n with
  | O => []
  | S n' =>
    match candidate jpegdata typ qt im t with
    | Ok (c, t') => c :: candidates n' jpegdata typ qt im t'
    | Raise _ => []
    end
  end.

(** The way the loop ended, read at the final cursor. *)
Definition ended_at (debug : bool) (jpeg_data : bytes) (i : Z) (e : ending)
  : Prop :=
  match e with
  | Finished => len jpeg_data <= i
  | Stopped => i < len jpeg_data /\ body debug jpeg_data i = Ok None
  | Raised x => i < len jpeg_data /\ body debug jpeg_data i = Raise x
  | OutOfFuel => True
  end.

(** The exception of the last line of [mosh_jpeg_data], as opposed to
    those that building a candidate can raise. *)
Definition retry_error (e : exn) : bool :=
  match e with
  | ValueError (NoValidData _) => true
  | _ => false
  end.

(** How the piece appended for a yielded tuple relates to the tuple:
    nothing for a stripped tuple, the tuple's bytes for one passed
    through, as many bytes as the tuple has otherwise. *)
Definition piece_of (s : segment) (piece : bytes) : Prop :=
  (stripped s = true -> piece = [])
  /\ (passed_through s = true -> piece = segdata s)
  /\ (stripped s = false -> length piece = length (segdata s)).

(** *** Concrete inputs *)

(** Start-Of-Image, a stray zero byte, End-Of-Image. *)
Definition stray_byte_jpeg : bytes := [xff; xd8; x00; xff; xd9].

(** A lone 0xFF. *)
Definition lone_ff : bytes := [xff].

(** A Restart-Interval marker cut off after its two marker bytes. *)
Definition cut_dri : bytes := [xff; xdd].

(** An APP0 marker whose length field says 1. *)
Definition short_app0 : bytes := [xff; xe0; x00; x01].

(** SOI, APP0 with identifier "A", a Start-Of-Scan with no component and
    three bytes of data, EOI. *)
Definition small_jpeg : bytes :=
  [xff; xd8;
   xff; xe0; x00; x04; x41; x00;
   xff; xda; x00; x02; x00; x11; x22;
   xff; xd9].

(** SOI, APP1 with a two-byte payload, a comment, EOI. *)
Definition app1_jpeg : bytes :=
  [xff; xd8;
   xff; xe1; x00; x04; x45; x78;
   xff; xfe; x00; x03; x68;
   xff; xd9].

(** SOI, one quantization table (precision/identifier byte 0x00 and 64
    entries equal to 1), EOI. *)
Definition dqt_segment : bytes :=
  [xff; xdb; x00; x43; x00] ++ repeat x01 64.

Definition dqt_jpeg : bytes := soi_bytes ++ dqt_segment ++ eoi_bytes.

(** *** Further vocabulary *)

(** The tuple yielded for an End-Of-Image marker. *)
Definition eoi_segment : segment :=
  mk_segment 0xd9 (Text "End Of Image") 2 eoi_bytes.

(** The yielded tuples [mosh_jpeg_data] does not strip. *)
Definition kept (segs : list segment) : list segment :=
  filter (fun s => negb (stripped s)) segs.

(** A corruption is idle when its mode bit is off or its count is not
    positive. *)
Definition idle (typ bit : Z) (intensity : Z * Z) : Prop :=
  Z.land typ bit = 0 \/ fst intensity <= 0.

(** SOI, a Start-Of-Scan of fewer than 21 bytes, EOI. *)
Definition short_scan_jpeg : bytes :=
  [xff; xd8;
   xff; xda; x00; x02; x00; x11; x22;
   xff; xd9].

(** A tuple too short for the corruption [mosh_jpeg_data] applies to it:
    a quantization table of at most 4 bytes (the call skips 4), a
    Start-Of-Scan of at most 20 (the call skips 20). *)
Definition too_short (s : segment) : Prop :=
  (marker s = DQT /\ len (segdata s) <= 4)
  \/ (marker s = SOS /\ len (segdata s) <= 20).

(** SOI, then a Start-Of-Scan whose count byte says 3 components with
    only five bytes behind it, the last two being FF D9. *)
Definition cut_scan_jpeg : bytes :=
  [xff; xd8;
   xff; xda; x00; x02; x03; x11; x22;
   xff; xd9].

(** A Start-Of-Scan of one component and 6 bytes in all. *)
Definition one_component_scan : bytes := [xff; xda; x00; x02; x01; x11].
(* ================================================================== *)
(** * Properties *)

(** ** Indexing and slicing *)

Section PyFacts.

Context {A : Type}.
Implicit Types (l : list A) (i j k : Z).

Lemma len_nonneg l : 0 <= len l.
Proof. unfold len. lia. Qed.

Lemma getitem_nonneg l i :
  0 <= i ->
  getitem l i = match nth_error l (Z.to_nat i) with
                | Some x => Ok x
                | None => Raise IndexError
                end.
Proof.
  intros Hi. unfold getitem.
  destruct (Z.ltb_spec i 0); [lia|].
  destruct (Z.ltb_spec i 0); [lia|]. reflexivity.
Qed.

Lemma getitem_raises l i e : getitem l i = Raise e -> e = IndexError.
Proof.
  unfold getitem. destruct (_ <? 0); [congruence|].
  destruct (nth_error _ _); congruence.
Qed.

Lemma getitem_Ok_lt l i x : 0 <= i -> getitem l i = Ok x -> i < len l.
Proof.
  intros Hi. rewrite getitem_nonneg by assumption.
  destruct (nth_error l (Z.to_nat i)) eqn:E; [|discriminate].
  intros _. assert (Z.to_nat i < length l)%nat.
  { apply nth_error_Some. congruence. }
  unfold len. lia.
Qed.

Lemma getitem_inside l i : 0 <= i < len l -> exists x, getitem l i = Ok x.
Proof.
  intros Hi. rewrite getitem_nonneg by lia.
  destruct (nth_error l (Z.to_nat i)) eqn:E; [eauto|].
  apply nth_error_None in E. unfold len in Hi. lia.
Qed.

Lemma getitem_outside l i : len l <= i -> getitem l i = Raise IndexError.
Proof.
  intros Hi. pose proof (len_nonneg l).
  rewrite getitem_nonneg by lia.
  destruct (nth_error l (Z.to_nat i)) eqn:E; [|reflexivity].
  assert (Z.to_nat i < length l)%nat by (apply nth_error_Some; congruence).
  unfold len in Hi. lia.
Qed.

Lemma take_add (p q : nat) l :
  firstn (p + q) l = firstn p l ++ firstn q (skipn p l).
Proof.
  revert l. induction p as [|p IH]; intros [|x l]; simpl; try reflexivity.
  - now rewrite firstn_nil.
  - now rewrite IH.
Qed.

(** A slice with bounds that are not negative, in terms of [firstn]
    and [skipn]. *)
Lemma slice_nonneg l i k :
  0 <= i -> 0 <= k ->
  slice l i k =
  firstn (Z.to_nat (Z.min k (len l)) - Z.to_nat (Z.min i (len l)))
         (skipn (Z.to_nat (Z.min i (len l))) l).
Proof.
  intros Hi Hk. unfold slice, clamp.
  destruct (Z.ltb_spec i 0); [lia|].
  destruct (Z.ltb_spec k 0); [lia|].
  f_equal. pose proof (len_nonneg l). lia.
Qed.

Lemma slice_app l i j k :
  0 <= i <= j -> j <= k -> slice l i j ++ slice l j k = slice l i k.
Proof.
  intros Hij Hjk. pose proof (len_nonneg l) as Hl.
  rewrite !slice_nonneg by lia.
  set (a := Z.to_nat (Z.min i (len l))).
  set (b := Z.to_nat (Z.min j (len l))).
  set (c := Z.to_nat (Z.min k (len l))).
  assert (Hab : (a <= b)%nat) by (subst a b; lia).
  assert (Hbc : (b <= c)%nat) by (subst b c; lia).
  replace (c - a)%nat with ((b - a) + (c - b))%nat by lia.
  rewrite take_add, skipn_skipn.
  replace (b - a + a)%nat with b by lia. reflexivity.
Qed.

Lemma slice_to_end l i k :
  0 <= i -> len l <= k -> slice l i k = skipn (Z.to_nat i) l.
Proof.
  intros Hi Hk. pose proof (len_nonneg l) as Hl.
  rewrite slice_nonneg by lia.
  destruct (Z.le_gt_cases (len l) i) as [Hge|Hlt].
  - rewrite !skipn_all2 by (unfold len in *; lia). now rewrite firstn_nil.
  - rewrite Z.min_r by lia. rewrite Z.min_l by lia.
    apply firstn_all2. rewrite length_skipn. unfold len. lia.
Qed.

Lemma slice_all l k : len l <= k -> slice l 0 k = l.
Proof. intros Hk. now rewrite slice_to_end by lia. Qed.

Lemma len_slice l i k :
  0 <= i <= k -> len (slice l i k) = Z.min k (len l) - Z.min i (len l).
Proof.
  intros Hik. pose proof (len_nonneg l) as Hl.
  rewrite slice_nonneg by lia. unfold len in *.
  rewrite length_firstn, length_skipn. lia.
Qed.

Lemma getitem_slice l i k j :
  0 <= i -> 0 <= j -> i + j < k -> i + j < len l ->
  getitem (slice l i k) j = getitem l (i + j).
Proof.
  intros Hi Hj Hk Hl.
  rewrite !getitem_nonneg by lia. rewrite slice_nonneg by lia.
  rewrite nth_error_firstn.
  destruct (Nat.ltb_spec (Z.to_nat j)
              (Z.to_nat (Z.min k (len l)) - Z.to_nat (Z.min i (len l))))
    as [_|H]; [|lia].
  rewrite nth_error_skipn.
  replace (Z.to_nat (Z.min i (len l)) + Z.to_nat j)%nat
    with (Z.to_nat (i + j)) by lia.
  reflexivity.
Qed.

End PyFacts.

Lemma ord_range b : 0 <= ord b < 256.
Proof.
  unfold ord. pose proof (Byte.to_N_bounded b). lia.
Qed.

Lemma ord_inj a b : ord a = ord b -> a = b.
Proof.
  unfold ord. intros H. apply N2Z.inj in H.
  pose proof (Byte.of_to_N a) as Ha. rewrite H, Byte.of_to_N in Ha.
  congruence.
Qed.

Lemma bytes_eqb_eq x y : bytes_eqb x y = true <-> x = y.
Proof.
  revert y. induction x as [|a x IH]; intros [|b y]; simpl;
    try (split; congruence).
  rewrite andb_true_iff, IH. split.
  - intros [Hab ->]. apply Byte.byte_dec_bl in Hab. now subst.
  - intros [= -> ->]. split; [apply Byte.byte_dec_lb|]; reflexivity.
Qed.

(** ** One pass of the loop *)

Lemma bind_Ok {A B} (r : result A) (k : A -> result B) b :
  Py.bind r k = Ok b -> exists a, r = Ok a /\ k a = Ok b.
Proof. destruct r; simpl; [eauto|discriminate]. Qed.

Lemma bind_Raise {A B} (r : result A) (k : A -> result B) e :
  Py.bind r k = Raise e ->
  r = Raise e \/ exists a, r = Ok a /\ k a = Raise e.
Proof. destruct r; simpl; [eauto|]. intros [= ->]. now left. Qed.

Lemma be16_range hi lo : 0 <= be16 hi lo < 65536.
Proof.
  unfold be16. rewrite Z.shiftl_mul_pow2 by lia. change (2 ^ 8) with 256.
  pose proof (ord_range hi). pose proof (ord_range lo). lia.
Qed.

Lemma be16_eq hi lo : be16 hi lo = 256 * ord hi + ord lo.
Proof.
  unfold be16. rewrite Z.shiftl_mul_pow2 by lia. change (2 ^ 8) with 256. lia.
Qed.

(** Case analysis on the comparisons of an [elif] chain. *)
Ltac split_tests :=
  repeat (match goal with
          | |- context [Z.eqb ?a ?b] => destruct (Z.eqb_spec a b)
          | |- context [Z.leb ?a ?b] => destruct (Z.leb_spec a b)
          | |- context [Z.geb ?a ?b] => rewrite (Z.geb_leb a b)
          end; cbn [andb orb negb]; cbv iota).

(** The dispatch follows one of three strategies, told apart by the
    marker alone. *)
Lemma dispatch_cases (jpeg_data : bytes) (i m : Z) :
  (exists n d, fixed_size m = Some n /\ dispatch jpeg_data i m = Ok (d, n, []))
  \/ (m = SOS /\ fixed_size m = None /\
      dispatch jpeg_data i m =
      (sos_header jpeg_data i ;;;
       if endswith jpeg_data eoi_bytes
       then Ok (Text "start of scan", (len jpeg_data - i) - 2,
                slice jpeg_data i (-2))
       else Ok (Text "start of scan", len jpeg_data - i,
                slice_from jpeg_data i)))
  \/ (codes_length m = true /\
      dispatch jpeg_data i m =
      (hi <- getitem jpeg_data (i + 2) ;;
       lo <- getitem jpeg_data (i + 3) ;;
       Ok (describe jpeg_data i m, be16 hi lo + 2,
           slice jpeg_data (i + 4) (i + 2 + be16 hi lo)))).
Proof.
  unfold dispatch, codes_length, fixed_size, SOI, EOI, SOS, be16.
  split_tests;
    first [ left; do 2 eexists; split; reflexivity
          | right; left; repeat split; (reflexivity || lia)
          | right; right; split; reflexivity
          | lia ].
Qed.

Lemma sos_header_Ok jpeg_data i u :
  0 <= i -> sos_header jpeg_data i = Ok u -> i + 4 < len jpeg_data.
Proof.
  intros Hi H. unfold sos_header in H.
  apply bind_Ok in H as (hi & _ & H).
  apply bind_Ok in H as (lo & _ & H).
  apply bind_Ok in H as (nc & Hnc & _).
  apply getitem_Ok_lt in Hnc; lia.
Qed.

Lemma for_each_raises {A} (l : list A) (f : A -> result unit) e :
  (forall a x, f a = Raise x -> x = IndexError) ->
  for_each l f = Raise e -> e = IndexError.
Proof.
  intros Hf. induction l as [|a l IH]; simpl; [discriminate|].
  intros H. apply bind_Raise in H as [H | (u & _ & H)]; eauto.
Qed.

Lemma sos_header_raises jpeg_data i e :
  sos_header jpeg_data i = Raise e -> e = IndexError.
Proof.
  unfold sos_header. intros H.
  apply bind_Raise in H as [H | (hi & _ & H)];
    [now apply getitem_raises in H|].
  apply bind_Raise in H as [H | (lo & _ & H)];
    [now apply getitem_raises in H|].
  apply bind_Raise in H as [H | (num_components & _ & H)];
    [now apply getitem_raises in H|].
  revert H. apply for_each_raises. intros ci x H.
  apply bind_Raise in H as [H | (cid & _ & H)];
    [now apply getitem_raises in H|].
  apply bind_Raise in H as [H | (htab & _ & H)];
    [now apply getitem_raises in H | discriminate].
Qed.

Lemma dispatch_raises jpeg_data i m e :
  dispatch jpeg_data i m = Raise e -> e = IndexError.
Proof.
  destruct (dispatch_cases jpeg_data i m)
    as [(n & d & _ & ->) | [(_ & _ & ->) | (_ & ->)]]; [discriminate| |].
  - intros H. apply bind_Raise in H as [H | (u & _ & H)].
    + now apply sos_header_raises in H.
    + destruct (endswith _ _); discriminate.
  - intros H.
    apply bind_Raise in H as [H | (hi & _ & H)];
      [now apply getitem_raises in H|].
    apply bind_Raise in H as [H | (lo & _ & H)];
      [now apply getitem_raises in H | discriminate].
Qed.

Lemma dispatch_moveon jpeg_data i m d mv loc :
  0 <= i -> dispatch jpeg_data i m = Ok (d, mv, loc) -> 2 <= mv.
Proof.
  intros Hi.
  destruct (dispatch_cases jpeg_data i m)
    as [(n & d' & Hn & ->) | [(_ & _ & ->) | (_ & ->)]].
  - intros [= <- <- <-]. unfold fixed_size in Hn.
    destruct (_ || _); [|destruct (_ =? _)]; inversion Hn; lia.
  - intros H. apply bind_Ok in H as (u & Hu & H).
    apply sos_header_Ok in Hu; [|assumption].
    destruct (endswith _ _); inversion H; lia.
  - intros H. apply bind_Ok in H as (hi & _ & H).
    apply bind_Ok in H as (lo & _ & H). inversion H.
    pose proof (be16_range hi lo). lia.
Qed.

(** What a pass that yields has read and computed. *)
Lemma body_yields debug jpeg_data i s :
  body debug jpeg_data i = Ok (Some s) ->
  getitem jpeg_data i = Ok xff /\
  exists m loc,
    getitem jpeg_data (i + 1) = Ok m /\
    marker s = ord m /\
    dispatch jpeg_data i (ord m) = Ok (descr s, moveon s, loc) /\
    segdata s = slice jpeg_data i (i + moveon s).
Proof.
  unfold body. intros H.
  apply bind_Ok in H as (b & Hb & H).
  destruct (Z.eqb_spec (ord b) 0xff) as [Hff|]; simpl in H; [|discriminate].
  apply bind_Ok in H as (m & Hm & H).
  apply bind_Ok in H as ([[d mv] loc] & Hd & H).
  apply bind_Ok in H as (u & _ & H).
  injection H as <-. simpl.
  split.
  - rewrite Hb. f_equal. apply ord_inj. exact Hff.
  - exists m, loc. auto.
Qed.

Lemma body_moveon debug jpeg_data i s :
  0 <= i -> body debug jpeg_data i = Ok (Some s) -> 2 <= moveon s.
Proof.
  intros Hi H. apply body_yields in H as (_ & m & loc & _ & _ & Hd & _).
  eapply dispatch_moveon; eassumption.
Qed.

Lemma body_stops debug jpeg_data i :
  body debug jpeg_data i = Ok None ->
  exists b, getitem jpeg_data i = Ok b /\ b <> xff.
Proof.
  unfold body. intros H.
  apply bind_Ok in H as (b & Hb & H). exists b. split; [assumption|].
  intros ->. simpl in H.
  apply bind_Ok in H as (m & _ & H).
  apply bind_Ok in H as ([[d mv] loc] & _ & H).
  apply bind_Ok in H as (u & _ & H). discriminate.
Qed.

(** ** The loop *)

(** Unfolding one turn of the loop that yields. *)
Lemma scan_cons fuel debug jpeg_data i s rest e :
  scan fuel debug jpeg_data i = (s :: rest, e) ->
  exists fuel',
    fuel = S fuel' /\ i < len jpeg_data /\
    body debug jpeg_data i = Ok (Some s) /\
    scan fuel' debug jpeg_data (i + moveon s) = (rest, e).
Proof.
  destruct fuel as [|fuel']; simpl; [discriminate|].
  destruct (Z.ltb_spec i (len jpeg_data)); [|discriminate].
  destruct (body debug jpeg_data i) as [[s'|]|x]; try discriminate.
  destruct (scan fuel' debug jpeg_data (i + moveon s')) as [rest' e'] eqn:E.
  intros [= -> -> ->]. eauto.
Qed.

(** The cursor never goes back. *)
Lemma scan_advance fuel debug jpeg_data i segs e :
  0 <= i -> scan fuel debug jpeg_data i = (segs, e) -> 0 <= advance segs.
Proof.
  revert fuel i. induction segs as [|s segs IH]; intros fuel i Hi H; simpl.
  - lia.
  - apply scan_cons in H as (fuel' & -> & Hlt & Hb & H).
    pose proof (body_moveon _ _ _ _ Hi Hb).
    apply IH in H; lia.
Qed.

(** Every yielded tuple comes from a pass of the loop at the offset the
    tuples before it add up to. *)
Lemma scan_split fuel debug jpeg_data i pre s post e :
  0 <= i ->
  scan fuel debug jpeg_data i = (pre ++ s :: post, e) ->
  0 <= advance pre /\
  i + advance pre < len jpeg_data /\
  body debug jpeg_data (i + advance pre) = Ok (Some s) /\
  exists fuel',
    scan fuel' debug jpeg_data (i + advance pre + moveon s) = (post, e).
Proof.
  revert fuel i. induction pre as [|p pre IH]; intros fuel i Hi H; simpl in *.
  - apply scan_cons in H as (fuel' & -> & Hlt & Hb & H).
    rewrite Z.add_0_r. eauto 6 with zarith.
  - apply scan_cons in H as (fuel' & -> & Hlt & Hb & H).
    pose proof (body_moveon _ _ _ _ Hi Hb) as Hp.
    apply IH in H as (Hadv & Hlt' & Hb' & fuel'' & H); [|lia].
    rewrite Z.add_assoc. repeat split; eauto with zarith.
Qed.

Lemma scan_end fuel debug jpeg_data i segs e :
  0 <= i ->
  scan fuel debug jpeg_data i = (segs, e) ->
  ended_at debug jpeg_data (i + advance segs) e.
Proof.
  revert fuel i. induction segs as [|s segs IH]; intros fuel i Hi H.
  - simpl. rewrite Z.add_0_r.
    destruct fuel as [|fuel']; simpl in H.
    + now inversion H.
    + destruct (Z.ltb_spec i (len jpeg_data)).
      * destruct (body debug jpeg_data i) as [[s'|]|x] eqn:Hb.
        -- destruct (scan fuel' debug jpeg_data (i + moveon s')); discriminate.
        -- inversion H. simpl. auto.
        -- inversion H. simpl. auto.
      * inversion H. simpl. assumption.
  - apply scan_cons in H as (fuel' & -> & Hlt & Hb & H).
    pose proof (body_moveon _ _ _ _ Hi Hb) as Hp.
    apply IH in H; [|lia]. simpl. now rewrite Z.add_assoc.
Qed.

(** More fuel than bytes left is never used up. *)
Lemma scan_fuel fuel debug jpeg_data i :
  0 <= i -> (0 < fuel)%nat -> len jpeg_data - i < Z.of_nat fuel ->
  snd (scan fuel debug jpeg_data i) <> OutOfFuel.
Proof.
  revert i. induction fuel as [|fuel' IH]; intros i Hi Hpos Hfuel; [lia|].
  simpl. destruct (Z.ltb_spec i (len jpeg_data)); [|discriminate].
  destruct (body debug jpeg_data i) as [[s|]|x] eqn:Hb; try discriminate.
  pose proof (body_moveon _ _ _ _ Hi Hb) as Hp.
  specialize (IH (i + moveon s)).
  destruct (scan fuel' debug jpeg_data (i + moveon s)) as [rest e].
  simpl in *. apply IH; lia.
Qed.

Lemma read_structure_fuel jpeg_data debug :
  how_ended (read_structure jpeg_data debug) <> OutOfFuel.
Proof.
  unfold how_ended, read_structure. apply scan_fuel; unfold len; lia.
Qed.

(** The yielded bytes, put together, are the bytes the cursor went
    over. *)
Lemma scan_reassemble fuel debug jpeg_data i segs e :
  0 <= i ->
  scan fuel debug jpeg_data i = (segs, e) ->
  reassemble segs = slice jpeg_data i (i + advance segs).
Proof.
  revert fuel i. induction segs as [|s segs IH]; intros fuel i Hi H.
  - simpl. rewrite Z.add_0_r. unfold reassemble. simpl.
    rewrite slice_nonneg by lia. now rewrite Nat.sub_diag.
  - apply scan_cons in H as (fuel' & -> & Hlt & Hb & H).
    pose proof (body_moveon _ _ _ _ Hi Hb) as Hp.
    assert (Hi' : 0 <= i + moveon s) by lia.
    pose proof (scan_advance _ _ _ _ _ _ Hi' H) as Hadv.
    apply IH in H; [|lia].
    apply body_yields in Hb as (_ & m & loc & _ & _ & _ & Hseg).
    unfold reassemble in *. simpl. rewrite H, Hseg.
    rewrite slice_app by lia. f_equal. lia.
Qed.

(** ** Where the scanner raises *)

Lemma for_each_snoc {A} (l : list A) (a : A) (f : A -> result unit) :
  for_each (l ++ [a]) f = (for_each l f ;;; f a).
Proof.
  induction l as [|b l IH]; simpl.
  - now destruct (f a) as [[]|].
  - destruct (f b); simpl; [apply IH|reflexivity].
Qed.

Lemma range_succ (k : nat) :
  range (Z.of_nat (S k)) = range (Z.of_nat k) ++ [Z.of_nat k].
Proof.
  unfold range. rewrite !Nat2Z.id, seq_S, map_app. reflexivity.
Qed.

Lemma reads_raises l indices e : reads l indices = Raise e -> e = IndexError.
Proof.
  apply for_each_raises. intros k x H.
  apply bind_Raise in H as [H | (? & _ & H)];
    [now apply getitem_raises in H | discriminate].
Qed.

Lemma debug_block_raises m segdata e :
  debug_block m segdata = Raise e -> e = IndexError.
Proof.
  unfold debug_block.
  destruct (m =? 0xe0).
  - destruct (bytes_eqb _ _); [apply reads_raises | discriminate].
  - destruct (m =? SOF0); [|discriminate].
    intros H. apply bind_Raise in H as [H | (? & _ & H)];
      [now apply reads_raises in H|].
    apply bind_Raise in H as [H | (comps & _ & H)];
      [now apply getitem_raises in H|].
    revert H. apply for_each_raises. intros ci y. apply reads_raises.
Qed.

(** [IndexError] is the only exception that leaves a pass. *)
Lemma body_raises debug jpeg_data i e :
  body debug jpeg_data i = Raise e -> e = IndexError.
Proof.
  unfold body. intros H.
  apply bind_Raise in H as [H | (b & _ & H)];
    [now apply getitem_raises in H|].
  destruct (negb _); [discriminate|].
  apply bind_Raise in H as [H | (m & _ & H)];
    [now apply getitem_raises in H|].
  apply bind_Raise in H as [H | ([[d mv] loc] & _ & H)];
    [now apply dispatch_raises in H|].
  apply bind_Raise in H as [H | (u & _ & H)]; [|discriminate].
  destruct debug; [now apply debug_block_raises in H | discriminate].
Qed.

(** The loop over the components of a scan header gets through exactly
    when the two bytes of every component are inside the buffer. *)
Lemma components_loop (jpeg_data : bytes) (i : Z) (k : nat) :
  0 <= i ->
  for_each (range (Z.of_nat k)) (fun ci =>
    cid <- getitem jpeg_data (i + 4 + 2 * ci) ;;
    htab <- getitem jpeg_data (i + 4 + 2 * ci + 1) ;;
    Ok tt)
  = if (k =? 0)%nat || (i + 4 + 2 * Z.of_nat k <=? len jpeg_data)
    then Ok tt else Raise IndexError.
Proof.
  intros Hi. induction k as [|k IH]; [reflexivity|].
  rewrite range_succ, for_each_snoc, IH. clear IH.
  cbn [Nat.eqb orb].
  destruct (Z.leb_spec (i + 4 + 2 * Z.of_nat (S k)) (len jpeg_data)) as [Hin|Hout].
  - replace ((k =? 0)%nat || (i + 4 + 2 * Z.of_nat k <=? len jpeg_data))
      with true
      by (symmetry; apply orb_true_iff; right; apply Z.leb_le; lia).
    cbv beta iota delta [Py.bind].
    destruct (getitem_inside jpeg_data (i + 4 + 2 * Z.of_nat k)) as [x ->];
      [lia|].
    destruct (getitem_inside jpeg_data (i + 4 + 2 * Z.of_nat k + 1)) as [y ->];
      [lia|].
    reflexivity.
  - destruct ((k =? 0)%nat || (i + 4 + 2 * Z.of_nat k <=? len jpeg_data));
      [|reflexivity].
    cbv beta iota delta [Py.bind].
    destruct (Z.le_gt_cases (len jpeg_data) (i + 4 + 2 * Z.of_nat k)).
    + now rewrite getitem_outside by lia.
    + destruct (getitem_inside jpeg_data (i + 4 + 2 * Z.of_nat k)) as [x ->];
        [lia|].
      cbv beta iota. now rewrite getitem_outside by lia.
Qed.

Lemma sos_header_spec (jpeg_data : bytes) (i : Z) :
  0 <= i -> getitem jpeg_data i = Ok xff ->
  getitem jpeg_data (i + 1) = Ok xda ->
  sos_header jpeg_data i =
  if i + header_bytes jpeg_data i <=? len jpeg_data
  then Ok tt else Raise IndexError.
Proof.
  intros Hi H0 H1. unfold sos_header, header_bytes. rewrite H1.
  change (fixed_size (ord xda)) with (@None Z).
  change (ord xda =? SOS) with true. cbv iota.
  destruct (Z.le_gt_cases (len jpeg_data) (i + 4)) as [Hshort|Hlong].
  - rewrite (getitem_outside jpeg_data (i + 4)) by lia.
    destruct (Z.leb_spec (i + 5) (len jpeg_data)); [lia|].
    destruct (getitem jpeg_data (i + 2)) as [hi|x] eqn:E2; simpl;
      [|now apply getitem_raises in E2; subst].
    destruct (getitem jpeg_data (i + 3)) as [lo|x] eqn:E3; simpl;
      [|now apply getitem_raises in E3; subst].
    reflexivity.
  - destruct (getitem_inside jpeg_data (i + 2)) as [hi ->]; [lia|].
    destruct (getitem_inside jpeg_data (i + 3)) as [lo ->]; [lia|].
    destruct (getitem_inside jpeg_data (i + 4)) as [nc ->]; [lia|].
    simpl Py.bind. pose proof (ord_range nc) as Hnc.
    rewrite <- (Z2Nat.id (ord nc)) at 1 by lia.
    rewrite components_loop by assumption.
    rewrite Z2Nat.id by lia.
    destruct (Nat.eqb_spec (Z.to_nat (ord nc)) 0) as [Hz|Hnz]; cbn [orb].
    + rewrite Z.max_l by lia.
      destruct (Z.leb_spec (i + 5) (len jpeg_data)); [reflexivity|lia].
    + rewrite Z.max_r by lia.
      now replace (i + (4 + 2 * ord nc)) with (i + 4 + 2 * ord nc) by lia.
Qed.

(** With [debug] off, a pass that starts on 0xFF raises exactly when the
    buffer ends inside the header it reads. *)
Lemma body_raises_iff (jpeg_data : bytes) (i : Z) :
  0 <= i -> getitem jpeg_data i = Ok xff ->
  (body false jpeg_data i = Raise IndexError <->
   len jpeg_data < i + header_bytes jpeg_data i).
Proof.
  intros Hi H0. unfold body. rewrite H0. simpl Py.bind.
  change (negb (ord xff =? 255)) with false. cbv iota.
  destruct (getitem jpeg_data (i + 1)) as [m|x] eqn:H1.
  2:{ unfold header_bytes. rewrite H1. apply getitem_raises in H1 as E. subst x.
      simpl. split; [intros _|reflexivity].
      destruct (Z.le_gt_cases (len jpeg_data) (i + 1)); [lia|].
      destruct (getitem_inside jpeg_data (i + 1)); [lia|congruence]. }
  simpl Py.bind. apply getitem_Ok_lt in H1 as Hlt1; [|lia].
  destruct (dispatch_cases jpeg_data i (ord m))
    as [(n & d & Hn & ->) | [(Hm & Hf & ->) | (Hc & ->)]].
  - unfold header_bytes. rewrite H1, Hn. simpl. split; [discriminate|lia].
  - assert (m = xda) by (apply ord_inj; exact Hm). subst m.
    rewrite sos_header_spec by assumption.
    destruct (Z.leb_spec (i + header_bytes jpeg_data i) (len jpeg_data)).
    + simpl. destruct (endswith _ _); simpl; split; (discriminate || lia).
    + simpl. split; [lia|reflexivity].
  - unfold header_bytes. rewrite H1.
    unfold codes_length in Hc.
    destruct (fixed_size (ord m)); [discriminate|].
    destruct (ord m =? SOS); [discriminate|].
    destruct (Z.le_gt_cases (len jpeg_data) (i + 3)).
    + split; [lia|intros _].
      destruct (getitem jpeg_data (i + 2)) as [hi|x] eqn:E2; simpl;
        [|now apply getitem_raises in E2; subst].
      now rewrite getitem_outside by lia.
    + destruct (getitem_inside jpeg_data (i + 2)) as [hi ->]; [lia|].
      destruct (getitem_inside jpeg_data (i + 3)) as [lo ->]; [lia|].
      simpl. split; [discriminate|lia].
Qed.

Lemma endswith_true (l suffix : bytes) :
  endswith l suffix = true ->
  len suffix <= len l /\ skipn (length l - length suffix) l = suffix.
Proof.
  unfold endswith. rewrite andb_true_iff, Nat.leb_le, bytes_eqb_eq.
  unfold len. intros [Hle Heq]. split; [lia|assumption].
Qed.

(* ================================================================== *)
(** ** The scanner: claims *)

(** What a call yields, cut at any tuple, is a pass of the loop at the
    offset of that tuple. *)
Lemma read_structure_split jpeg_data debug pre s post e :
  read_structure jpeg_data debug = (pre ++ s :: post, e) ->
  0 <= advance pre /\
  advance pre < len jpeg_data /\
  body debug jpeg_data (advance pre) = Ok (Some s) /\
  exists fuel',
    scan fuel' debug jpeg_data (advance pre + moveon s) = (post, e).
Proof.
  unfold read_structure. intros H.
  apply scan_split in H; [|lia]. rewrite !Z.add_0_l in H. exact H.
Qed.

Lemma read_structure_end jpeg_data debug :
  ended_at debug jpeg_data
           (advance (yielded (read_structure jpeg_data debug)))
           (how_ended (read_structure jpeg_data debug)).
Proof.
  unfold yielded, how_ended, read_structure.
  destruct (scan _ _ _ _) as [segs e] eqn:H.
  apply scan_end in H; [|lia]. exact H.
Qed.

(** The yielded bytes are the start of the buffer, up to the cursor. *)
Lemma reassemble_prefix jpeg_data debug :
  reassemble (yielded (read_structure jpeg_data debug)) =
  slice jpeg_data 0 (advance (yielded (read_structure jpeg_data debug))).
Proof.
  unfold yielded, read_structure.
  destruct (scan _ _ _ _) as [segs e] eqn:H.
  apply scan_reassemble in H; [|lia]. exact H.
Qed.

(** C1, as amended.  For every buffer that begins with Start-Of-Image
    and ends with End-Of-Image, the [segdata] of the yielded tuples, put
    together in yield order, are a leading part of the buffer; they are
    the whole buffer when the loop ran to the end of the buffer (it was
    not left by the [break] on a byte other than 0xFF, nor by an
    exception). *)
Theorem roundtrip_when_finished (jpeg_data : bytes) (debug : bool) :
  startswith jpeg_data soi_bytes = true ->
  endswith jpeg_data eoi_bytes = true ->
  (exists rest,
     jpeg_data = reassemble (yielded (read_structure jpeg_data debug)) ++ rest)
  /\ (how_ended (read_structure jpeg_data debug) = Finished ->
      reassemble (yielded (read_structure jpeg_data debug)) = jpeg_data).
Proof.
  intros _ _. rewrite reassemble_prefix.
  set (n := advance (yielded (read_structure jpeg_data debug))).
  assert (Hn : 0 <= n).
  { subst n. unfold yielded, read_structure.
    destruct (scan _ _ _ _) as [segs e] eqn:H.
    eapply scan_advance in H; [exact H | lia]. }
  split.
  - destruct (Z.le_gt_cases n (len jpeg_data)).
    + exists (slice jpeg_data n (len jpeg_data)).
      rewrite slice_app by lia. now rewrite slice_all by lia.
    + exists []. rewrite app_nil_r. now rewrite slice_all by lia.
  - intros Hfin. pose proof (read_structure_end jpeg_data debug) as He.
    rewrite Hfin in He. simpl in He. fold n in He.
    now apply slice_all.
Qed.

Lemma roundtrip_when_finished_witness :
  (exists rest,
     small_jpeg = reassemble (yielded (read_structure small_jpeg false)) ++ rest)
  /\ (how_ended (read_structure small_jpeg false) = Finished ->
      reassemble (yielded (read_structure small_jpeg false)) = small_jpeg).
Proof.
  apply (roundtrip_when_finished small_jpeg false); reflexivity.
Defined.

(** C1 as stated fails: [stray_byte_jpeg] begins with Start-Of-Image and
    ends with End-Of-Image, the loop breaks on its third byte, and the
    yielded bytes are the first two only. *)
Lemma roundtrip_counterexample :
  startswith stray_byte_jpeg soi_bytes = true /\
  endswith stray_byte_jpeg eoi_bytes = true /\
  read_structure stray_byte_jpeg false =
    ([mk_segment 0xd8 (Text "Start Of Image") 2 [xff; xd8]], Stopped) /\
  reassemble (yielded (read_structure stray_byte_jpeg false)) <> stray_byte_jpeg.
Proof.
  repeat split. vm_compute. discriminate.
Qed.

(** C2, as amended.  On every input [read_structure] terminates, and
    the bytes of each yielded tuple are the slice
    [jpeg_data[start:start+moveon]], which is clamped to the bytes that
    are there.  It is not free of exceptions: [IndexError] (and nothing
    else) leaves it, and with [debug] off it does so exactly when the
    buffer has fewer bytes from the last segment start reached than
    the pass reads there by index ([header_bytes]): 2 for the marker
    byte; 4 for a segment that codes its length; for a Start-Of-Scan 5
    (length bytes and component count [n]), or [4 + 2 * n] when [n] is
    not 0, the component reads starting on the count byte. *)
Theorem read_structure_safety (jpeg_data : bytes) (debug : bool) :
  how_ended (read_structure jpeg_data debug) <> OutOfFuel
  /\ (forall pre s post,
        yielded (read_structure jpeg_data debug) = pre ++ s :: post ->
        segdata s = slice jpeg_data (advance pre) (advance pre + moveon s)
        /\ len (segdata s) <= len jpeg_data - advance pre
        /\ len (segdata s) <= moveon s)
  /\ (forall x, how_ended (read_structure jpeg_data debug) = Raised x ->
                x = IndexError)
  /\ (debug = false ->
      (how_ended (read_structure jpeg_data debug) = Raised IndexError <->
       getitem jpeg_data (advance (yielded (read_structure jpeg_data debug)))
         = Ok xff
       /\ len jpeg_data <
          advance (yielded (read_structure jpeg_data debug))
          + header_bytes jpeg_data
              (advance (yielded (read_structure jpeg_data debug))))).
Proof.
  pose proof (read_structure_fuel jpeg_data debug) as Hfuel.
  pose proof (read_structure_end jpeg_data debug) as Hend.
  assert (Hadv : 0 <= advance (yielded (read_structure jpeg_data debug))).
  { unfold yielded, read_structure.
    destruct (scan _ _ _ _) as [segs e] eqn:H.
    eapply scan_advance in H; [exact H | lia]. }
  split; [exact Hfuel|]. split; [|split].
  - intros pre s post Hy.
    destruct (read_structure jpeg_data debug) as [segs e] eqn:H.
    unfold yielded in Hy. simpl in Hy. subst segs.
    apply read_structure_split in H as (Hpre & Hlt & Hb & _).
    pose proof (body_moveon _ _ _ _ Hpre Hb) as Hmv.
    apply body_yields in Hb as (_ & m & loc & _ & _ & _ & Hseg).
    split; [exact Hseg|]. rewrite Hseg, len_slice by lia. lia.
  - intros x Hx. rewrite Hx in Hend. destruct Hend as [_ Hb].
    now apply body_raises in Hb.
  - intros ->.
    set (i := advance (yielded (read_structure jpeg_data false))) in *.
    split.
    + intros Hx. rewrite Hx in Hend. destruct Hend as [Hlt Hb].
      assert (H0 : getitem jpeg_data i = Ok xff).
      { destruct (getitem_inside jpeg_data i) as [b Hb0]; [lia|].
        unfold body in Hb. rewrite Hb0 in Hb. simpl in Hb.
        destruct (Z.eqb_spec (ord b) 255) as [E|]; [|discriminate].
        rewrite Hb0. f_equal. now apply ord_inj. }
      split; [exact H0|]. now apply body_raises_iff.
    + intros [H0 Hshort].
      apply getitem_Ok_lt in H0 as Hlt; [|assumption].
      destruct (how_ended (read_structure jpeg_data false)) as [| |x|];
        simpl in Hend.
      * lia.
      * destruct Hend as [_ Hb]. apply body_stops in Hb as (b & Hb & Hne).
        congruence.
      * destruct Hend as [_ Hb]. apply body_raises in Hb as E. now subst.
      * congruence.
Qed.

(** C2 as stated fails: on a lone 0xFF the read of the marker byte
    raises [IndexError]. *)
Lemma read_structure_raises_counterexample :
  read_structure lone_ff false = ([], Raised IndexError).
Proof. reflexivity. Qed.

(** A Start-Of-Scan with one component needs 6 bytes, not 7: the two
    reads for the component are at offsets 4 and 5. *)
Example one_component_scan_yields :
  read_structure one_component_scan false
  = ([mk_segment 0xda (Text "start of scan") 6 one_component_scan], Finished)
  /\ header_bytes one_component_scan 0 = 6.
Proof. split; reflexivity. Qed.

(** C3, as amended.  A yielded Start-Of-Scan tuple starts on the 0xFF of
    its marker; when the buffer ends with End-Of-Image its bytes
    followed by that marker are the rest of the buffer, otherwise its
    bytes are the rest of the buffer. *)
Theorem sos_segment_span (jpeg_data : bytes) (debug : bool)
  (pre : list segment) (s : segment) (post : list segment) (e : ending) :
  read_structure jpeg_data debug = (pre ++ s :: post, e) ->
  marker s = SOS ->
  getitem jpeg_data (advance pre) = Ok xff
  /\ getitem jpeg_data (advance pre + 1) = Ok xda
  /\ (endswith jpeg_data eoi_bytes = true ->
      segdata s ++ eoi_bytes = skipn (Z.to_nat (advance pre)) jpeg_data)
  /\ (endswith jpeg_data eoi_bytes = false ->
      segdata s = skipn (Z.to_nat (advance pre)) jpeg_data).
Proof.
  intros H Hm.
  apply read_structure_split in H as (Hpre & Hlt & Hb & _).
  apply body_yields in Hb as (H0 & m & loc & H1 & Hmk & Hd & Hseg).
  rewrite Hm in Hmk.
  assert (m = xda) by (apply ord_inj; symmetry; exact Hmk). subst m.
  split; [exact H0|]. split; [exact H1|].
  destruct (dispatch_cases jpeg_data (advance pre) (ord xda))
    as [(n & d & Hn & _) | [(_ & _ & Hsos) | (Hc & _)]];
    [discriminate | | discriminate].
  rewrite Hsos in Hd. apply bind_Ok in Hd as (u & Hu & Hd).
  apply sos_header_Ok in Hu; [|assumption].
  destruct (endswith jpeg_data eoi_bytes) eqn:Hends.
  - split; [intros _|discriminate].
    injection Hd as _ Hmv _. rewrite <- Hmv in Hseg.
    apply endswith_true in Hends as [_ Htail].
    assert (Ht : slice jpeg_data (len jpeg_data - 2) (len jpeg_data) = eoi_bytes).
    { rewrite slice_to_end by lia. etransitivity; [|exact Htail].
      f_equal. unfold len. simpl. lia. }
    rewrite Hseg, <- Ht.
    replace (advance pre + (len jpeg_data - advance pre - 2))
      with (len jpeg_data - 2) by lia.
    rewrite slice_app by lia. apply slice_to_end; lia.
  - split; [discriminate|intros _].
    injection Hd as _ Hmv _. rewrite <- Hmv in Hseg.
    rewrite Hseg. apply slice_to_end; lia.
Qed.

Lemma sos_segment_span_witness :
  getitem small_jpeg 8 = Ok xff
  /\ getitem small_jpeg (8 + 1) = Ok xda
  /\ (endswith small_jpeg eoi_bytes = true ->
      [xff; xda; x00; x02; x00; x11; x22] ++ eoi_bytes
      = skipn (Z.to_nat 8) small_jpeg)
  /\ (endswith small_jpeg eoi_bytes = false ->
      [xff; xda; x00; x02; x00; x11; x22] = skipn (Z.to_nat 8) small_jpeg).
Proof.
  apply (sos_segment_span small_jpeg false
           [mk_segment 0xd8 (Text "Start Of Image") 2 [xff; xd8];
            mk_segment 0xe0 (AppText 0 [x41]) 6
                       [xff; xe0; x00; x04; x41; x00]]
           (mk_segment 0xda (Text "start of scan") 7
                       [xff; xda; x00; x02; x00; x11; x22])
           [mk_segment 0xd9 (Text "End Of Image") 2 [xff; xd9]]
           Finished); reflexivity.
Defined.

(** C3 as stated fails: in [cut_scan_jpeg], which ends with
    End-Of-Image, the scan reaches the Start-Of-Scan marker at offset 2,
    the read of line 186 for the third component is past the end, and
    [IndexError] is raised with no Start-Of-Scan tuple yielded. *)
Lemma sos_segment_span_counterexample :
  endswith cut_scan_jpeg eoi_bytes = true
  /\ read_structure cut_scan_jpeg false
     = ([mk_segment 0xd8 (Text "Start Of Image") 2 [xff; xd8]],
        Raised IndexError)
  /\ advance [mk_segment 0xd8 (Text "Start Of Image") 2 [xff; xd8]] = 2
  /\ getitem cut_scan_jpeg 2 = Ok xff
  /\ getitem cut_scan_jpeg (2 + 1) = Ok xda.
Proof. repeat split. Qed.

(** C4, as amended.  The length of a yielded tuple's bytes is [moveon]
    clamped to the bytes left from the tuple's start: it is [moveon] for
    every tuple that is followed by another, and can only fall short of
    [moveon] for the last tuple, when the buffer is cut off inside
    it. *)
Theorem segdata_length_clamped (jpeg_data : bytes) (debug : bool)
  (pre : list segment) (s : segment) (post : list segment) (e : ending) :
  read_structure jpeg_data debug = (pre ++ s :: post, e) ->
  len (segdata s) = Z.min (moveon s) (len jpeg_data - advance pre)
  /\ (post <> [] -> len (segdata s) = moveon s).
Proof.
  intros H.
  apply read_structure_split in H as (Hpre & Hlt & Hb & fuel' & Hrest).
  pose proof (body_moveon _ _ _ _ Hpre Hb) as Hmv.
  apply body_yields in Hb as (_ & m & loc & _ & _ & _ & Hseg).
  rewrite Hseg, len_slice by lia. split; [lia|].
  destruct post as [|s' post]; [congruence|]. intros _.
  apply scan_cons in Hrest as (_ & _ & Hlt' & _). lia.
Qed.

Lemma segdata_length_clamped_witness :
  len [xff; xe0; x00; x04; x41; x00] = Z.min 6 (len small_jpeg - 2)
  /\ ([mk_segment 0xda (Text "start of scan") 7
                  [xff; xda; x00; x02; x00; x11; x22];
       mk_segment 0xd9 (Text "End Of Image") 2 [xff; xd9]] <> [] ->
      len [xff; xe0; x00; x04; x41; x00] = 6).
Proof.
  apply (segdata_length_clamped small_jpeg false
           [mk_segment 0xd8 (Text "Start Of Image") 2 [xff; xd8]]
           (mk_segment 0xe0 (AppText 0 [x41]) 6
                       [xff; xe0; x00; x04; x41; x00])
           [mk_segment 0xda (Text "start of scan") 7
                       [xff; xda; x00; x02; x00; x11; x22];
            mk_segment 0xd9 (Text "End Of Image") 2 [xff; xd9]]
           Finished); reflexivity.
Defined.

(** C4 as stated fails: of a Restart-Interval marker cut off after its
    marker bytes a tuple with [moveon] 6 and two bytes is yielded. *)
Lemma segdata_length_counterexample :
  read_structure cut_dri false =
    ([mk_segment 0xdd (Text "restart interval") 6 [xff; xdd]], Finished)
  /\ len [xff; xdd] <> 6.
Proof. split; [reflexivity | discriminate]. Qed.

(** C8, as amended.  For every tuple yielded through the branch for
    markers that code their length, [moveon] is 2 plus the big-endian
    16-bit integer of the two buffer bytes that follow the marker; these
    are the bytes at indices 2 and 3 of the tuple's own bytes whenever
    that integer is at least 2. *)
Theorem length_field_consistency (jpeg_data : bytes) (debug : bool)
  (pre : list segment) (s : segment) (post : list segment) (e : ending) :
  read_structure jpeg_data debug = (pre ++ s :: post, e) ->
  codes_length (marker s) = true ->
  exists hi lo,
    getitem jpeg_data (advance pre + 2) = Ok hi
    /\ getitem jpeg_data (advance pre + 3) = Ok lo
    /\ moveon s = 2 + be16 hi lo
    /\ (2 <= be16 hi lo ->
        getitem (segdata s) 2 = Ok hi /\ getitem (segdata s) 3 = Ok lo).
Proof.
  intros H Hc.
  apply read_structure_split in H as (Hpre & Hlt & Hb & _).
  apply body_yields in Hb as (_ & m & loc & _ & Hmk & Hd & Hseg).
  rewrite Hmk in Hc.
  destruct (dispatch_cases jpeg_data (advance pre) (ord m))
    as [(n & d & Hn & _) | [(Hsos & Hf & _) | (_ & Hcoded)]].
  - unfold codes_length in Hc. rewrite Hn in Hc. discriminate.
  - unfold codes_length in Hc. rewrite Hf, Hsos in Hc. discriminate.
  - rewrite Hcoded in Hd.
    apply bind_Ok in Hd as (hi & Hhi & Hd).
    apply bind_Ok in Hd as (lo & Hlo & Hd).
    injection Hd as _ Hmv _.
    exists hi, lo. repeat split; try assumption; try lia.
    + rewrite Hseg, getitem_slice; try lia; [assumption|].
      apply getitem_Ok_lt in Hhi; lia.
    + rewrite Hseg, getitem_slice; try lia; [assumption|].
      apply getitem_Ok_lt in Hlo; lia.
Qed.

Lemma length_field_consistency_witness :
  exists hi lo,
    getitem small_jpeg (2 + 2) = Ok hi
    /\ getitem small_jpeg (2 + 3) = Ok lo
    /\ 6 = 2 + be16 hi lo
    /\ (2 <= be16 hi lo ->
        getitem [xff; xe0; x00; x04; x41; x00] 2 = Ok hi
        /\ getitem [xff; xe0; x00; x04; x41; x00] 3 = Ok lo).
Proof.
  apply (length_field_consistency small_jpeg false
           [mk_segment 0xd8 (Text "Start Of Image") 2 [xff; xd8]]
           (mk_segment 0xe0 (AppText 0 [x41]) 6
                       [xff; xe0; x00; x04; x41; x00])
           [mk_segment 0xda (Text "start of scan") 7
                       [xff; xda; x00; x02; x00; x11; x22];
            mk_segment 0xd9 (Text "End Of Image") 2 [xff; xd9]]
           Finished); reflexivity.
Defined.

(** C8 as stated fails: an APP0 marker whose length field says 1 is
    yielded with [moveon] 3 and three bytes, so its bytes have no
    index 3 to form the integer from. *)
Lemma length_field_counterexample :
  read_structure short_app0 false =
    ([mk_segment 0xe0 (AppText 0 []) 3 [xff; xe0; x00]], Stopped)
  /\ codes_length 0xe0 = true
  /\ getitem [xff; xe0; x00] 3 = Raise IndexError.
Proof. repeat split. Qed.

(* ================================================================== *)
(** ** flipbits *)

Lemma rbind_Ok {A B} (c : rand A) (k : A -> rand B) t b t' :
  Rand.bind c k t = Ok (b, t') ->
  exists a t1, c t = Ok (a, t1) /\ k a t1 = Ok (b, t').
Proof.
  unfold Rand.bind. destruct (c t) as [[a t1]|e]; [eauto|discriminate].
Qed.

Lemma rbind_Raise {A B} (c : rand A) (k : A -> rand B) t e :
  Rand.bind c k t = Raise e ->
  c t = Raise e \/ exists a t1, c t = Ok (a, t1) /\ k a t1 = Raise e.
Proof.
  unfold Rand.bind. destruct (c t) as [[a t1]|x]; [eauto|].
  intros [= ->]. now left.
Qed.

Lemma lift_Ok {A} (r : result A) t a t' :
  lift r t = Ok (a, t') -> r = Ok a /\ t' = t.
Proof. unfold lift. destruct r; [intros [= -> ->]; auto | discriminate]. Qed.

Lemma ret_Ok {A} (a b : A) t t' : Rand.ret a t = Ok (b, t') -> b = a /\ t' = t.
Proof. unfold Rand.ret. intros [= -> ->]. auto. Qed.

Lemma randint_Ok a b t r t' : randint a b t = Ok (r, t') -> a <= r <= b.
Proof.
  unfold randint. destruct (Z.ltb_spec 0 (b + 1 - a)) as [Hw|]; [|discriminate].
  intros H. apply rbind_Ok in H as (d & t1 & _ & H).
  apply ret_Ok in H as [-> _].
  pose proof (Z.mod_pos_bound d (b + 1 - a) Hw). lia.
Qed.

(** What holds before a loop and is kept by every pass that returns
    holds after the loop. *)
Lemma times_invariant {A} (P : A -> Prop) (n : nat) (body : A -> rand A) :
  (forall a t a' t', P a -> body a t = Ok (a', t') -> P a') ->
  forall a t a' t', P a -> times n body a t = Ok (a', t') -> P a'.
Proof.
  intros Hbody. induction n as [|n IH]; intros a t a' t' Ha H; simpl in H.
  - apply ret_Ok in H as [-> _]. exact Ha.
  - apply rbind_Ok in H as (a1 & t1 & H1 & H). eauto.
Qed.

Lemma length_update {A} (l : list A) n x : length (update l n x) = length l.
Proof.
  revert n. induction l as [|y l IH]; intros [|n]; simpl; auto.
Qed.

Lemma nth_error_update_other {A} (l : list A) n k x :
  n <> k -> nth_error (update l n x) k = nth_error l k.
Proof.
  revert n k. induction l as [|y l IH]; intros [|n] [|k] Hne; simpl;
    try reflexivity; try congruence.
  apply IH. congruence.
Qed.

(** An item assignment that returns has replaced one byte, at the index
    once a negative one is counted from the end. *)
Lemma setitem_Ok (l : bytes) (i v : Z) (l' : bytes) :
  setitem l i v = Ok l' ->
  exists b, l' = update l (Z.to_nat (if i <? 0 then i + len l else i)) b
            /\ 0 <= (if i <? 0 then i + len l else i) < len l.
Proof.
  unfold setitem. set (j := if i <? 0 then i + len l else i).
  destruct (Z.ltb_spec j 0); simpl; [discriminate|].
  destruct (Z.leb_spec (len l) j); [discriminate|].
  destruct (v <? 0); [discriminate|].
  destruct (Byte.of_N (Z.to_N v)) as [b|]; [|discriminate].
  intros [= <-]. exists b. split; [reflexivity|lia].
Qed.

Lemma flip_bit_length targetbyte retdata t out t' :
  flip_bit targetbyte retdata t = Ok (out, t') ->
  length out = length retdata.
Proof.
  unfold flip_bit. intros H.
  apply rbind_Ok in H as (bitnum & t1 & _ & H).
  apply rbind_Ok in H as (old & t2 & _ & H).
  apply lift_Ok in H as [H _].
  apply setitem_Ok in H as (b & -> & _). apply length_update.
Qed.

Lemma flip_bit_other targetbyte retdata t out t' (k : nat) :
  0 <= targetbyte -> Z.to_nat targetbyte <> k ->
  flip_bit targetbyte retdata t = Ok (out, t') ->
  nth_error out k = nth_error retdata k.
Proof.
  unfold flip_bit. intros Hpos Hne H.
  apply rbind_Ok in H as (bitnum & t1 & _ & H).
  apply rbind_Ok in H as (old & t2 & _ & H).
  apply lift_Ok in H as [H _].
  apply setitem_Ok in H as (b & -> & _).
  destruct (Z.ltb_spec targetbyte 0); [lia|].
  now apply nth_error_update_other.
Qed.

Lemma flip_round_length data howmanybits skipfirstbytes mask retdata t out t' :
  flip_round data howmanybits skipfirstbytes mask retdata t = Ok (out, t') ->
  length out = length retdata.
Proof.
  unfold flip_round. intros H.
  apply rbind_Ok in H as (targetbyte & t1 & _ & H).
  revert H.
  apply (times_invariant (fun l => length l = length retdata));
    [|reflexivity].
  intros a t0 a' t0' Ha Hstep.
  apply flip_bit_length in Hstep. congruence.
Qed.

Lemma flipbits_keeps_length data howmanytimes howmanybits skipfirstbytes mask
  t out t' :
  flipbits data howmanytimes howmanybits skipfirstbytes mask t = Ok (out, t') ->
  length out = length data.
Proof.
  unfold flipbits.
  apply (times_invariant (fun l => length l = length data)); [|reflexivity].
  intros a t0 a' t0' Ha Hround.
  apply flip_round_length in Hround. congruence.
Qed.

(** C10.  Whenever [flipbits] returns, whatever the counts, the skip and
    the mask, the [bytes] it returns are as many as its input has. *)
Theorem flipbits_length (data : bytes)
  (howmanytimes howmanybits skipfirstbytes : Z) (mask : option (list Z))
  (t : tape) (out : bytes) (t' : tape) :
  flipbits data howmanytimes howmanybits skipfirstbytes mask t = Ok (out, t') ->
  len out = len data.
Proof.
  intros H. unfold len. f_equal. eapply flipbits_keeps_length. exact H.
Qed.

Lemma flipbits_length_witness :
  len [xff; xda; x00; x03] = len [xff; xda; x00; x02].
Proof.
  apply (flipbits_length [xff; xda; x00; x02] 1 1 0 None [3; 0]
                         [xff; xda; x00; x03] []).
  reflexivity.
Defined.

Lemma flip_round_skips data howmanybits skipfirstbytes retdata t out t' idx :
  0 <= idx < skipfirstbytes ->
  flip_round data howmanybits skipfirstbytes None retdata t = Ok (out, t') ->
  nth_error out (Z.to_nat idx) = nth_error retdata (Z.to_nat idx).
Proof.
  unfold flip_round. simpl truthy. cbv iota. intros Hidx H.
  apply rbind_Ok in H as (targetbyte & t1 & Htarget & H).
  apply randint_Ok in Htarget.
  revert H.
  apply (times_invariant
           (fun l => nth_error l (Z.to_nat idx) = nth_error retdata (Z.to_nat idx)));
    [|reflexivity].
  intros a t0 a' t0' Ha Hstep.
  apply flip_bit_other with (k := Z.to_nat idx) in Hstep; [congruence|lia|lia].
Qed.

Lemma flipbits_no_mask_skips data howmanytimes howmanybits skipfirstbytes
  t out t' idx :
  0 <= idx < skipfirstbytes ->
  flipbits data howmanytimes howmanybits skipfirstbytes None t = Ok (out, t') ->
  getitem out idx = getitem data idx.
Proof.
  intros Hidx H. rewrite !getitem_nonneg by lia.
  enough (E : nth_error out (Z.to_nat idx) = nth_error data (Z.to_nat idx))
    by now rewrite E.
  revert H. unfold flipbits. simpl truthy. cbv iota.
  apply (times_invariant
           (fun l => nth_error l (Z.to_nat idx) = nth_error data (Z.to_nat idx)));
    [|reflexivity].
  intros a t0 a' t0' Ha Hround.
  apply flip_round_skips with (idx := idx) in Hround; [congruence|assumption].
Qed.

(** C9.  A call of [flipbits] with no mask that returns leaves every
    byte at an index below [skipfirstbytes] as it was: the first
    [skipfirstbytes] bytes.  So does the corruption of a Start-Of-Scan
    tuple, which skips 20: the piece it appends has the tuple's first
    20 bytes. *)
Theorem flipbits_skips_first :
  (forall (data : bytes) (howmanytimes howmanybits skipfirstbytes : Z)
          (t : tape) (out : bytes) (t' : tape),
      flipbits data howmanytimes howmanybits skipfirstbytes None t
        = Ok (out, t') ->
      forall idx, 0 <= idx < skipfirstbytes ->
                  getitem out idx = getitem data idx)
  /\ (forall (typ : Z) (qt im : Z * Z) (ret : list bytes) (s : segment)
             (t : tape) (ret' : list bytes) (t' : tape),
        marker s = SOS ->
        mosh_segment typ qt im ret s t = Ok (ret', t') ->
        exists piece,
          ret' = ret ++ [piece]
          /\ forall idx, 0 <= idx < 20 ->
                         getitem piece idx = getitem (segdata s) idx).
Proof.
  split.
  - intros data n b k t out t' H idx Hidx.
    eapply flipbits_no_mask_skips; eassumption.
  - intros typ qt im ret s t ret' t' Hm H.
    unfold mosh_segment in H. rewrite Hm in H.
    change (SOS =? DQT) with false in H. change (SOS =? SOS) with true in H.
    cbv iota in H.
    destruct (negb (Z.land typ 2 =? 0)).
    + apply rbind_Ok in H as (piece & t1 & Hflip & H).
      apply ret_Ok in H as [-> _]. exists piece. split; [reflexivity|].
      intros idx Hidx. eapply flipbits_no_mask_skips; eassumption.
    + apply ret_Ok in H as [-> _]. exists (segdata s). auto.
Qed.

Lemma flipbits_skips_first_witness :
  getitem [xff; xda; x01; x02] 1 = getitem [xff; xda; x00; x02] 1.
Proof.
  apply (proj1 flipbits_skips_first [xff; xda; x00; x02] 1 1 2 [0; 0]
               [xff; xda; x01; x02] []); [reflexivity | lia].
Defined.

(** The byte at index [skipfirstbytes] itself is not protected when no
    mask is given: the target is drawn from [skipfirstbytes] on. *)
Example flipbits_reaches_skip_index :
  flipbits [xff; xda; x00; x02] 1 1 2 None [0; 0]
  = Ok ([xff; xda; x01; x02], []).
Proof. reflexivity. Qed.

(* ================================================================== *)
(** ** mosh_jpeg_data *)

(** *** The exceptions of a candidate *)

Lemma times_raises {A} (P : exn -> Prop) (n : nat) (body : A -> rand A) :
  (forall a t e, body a t = Raise e -> P e) ->
  forall a t e, times n body a t = Raise e -> P e.
Proof.
  intros Hbody. induction n as [|n IH]; intros a t e H; simpl in H.
  - discriminate.
  - apply rbind_Raise in H as [H | (a1 & t1 & _ & H)]; eauto.
Qed.

Lemma lift_Raise {A} (r : result A) t e : lift r t = Raise e -> r = Raise e.
Proof. unfold lift. destruct r; [discriminate | congruence]. Qed.

Lemma randint_raises a b t e :
  randint a b t = Raise e -> e = ValueError EmptyRange.
Proof.
  unfold randint. destruct (0 <? b + 1 - a).
  - intros H. apply rbind_Raise in H as [H | (r & t1 & _ & H)].
    + destruct t; discriminate.
    + discriminate.
  - unfold raise. congruence.
Qed.

Lemma choice_raises {A} (seq : list A) t e :
  choice seq t = Raise e -> e = IndexError.
Proof.
  unfold choice. destruct (len seq =? 0).
  - unfold raise. congruence.
  - intros H. apply rbind_Raise in H as [H | (r & t1 & _ & H)].
    + destruct t; discriminate.
    + apply lift_Raise in H. now apply getitem_raises in H.
Qed.

Lemma setitem_raises l i v e :
  setitem l i v = Raise e -> retry_error e = false.
Proof.
  unfold setitem. destruct (_ || _); [now intros [= <-]|].
  destruct (v <? 0); [now intros [= <-]|].
  destruct (Byte.of_N _); [discriminate | now intros [= <-]].
Qed.

Lemma flip_bit_raises targetbyte retdata t e :
  flip_bit targetbyte retdata t = Raise e -> retry_error e = false.
Proof.
  unfold flip_bit. intros H.
  apply rbind_Raise in H as [H | (bitnum & t1 & _ & H)];
    [now apply randint_raises in H; subst|].
  apply rbind_Raise in H as [H | (old & t2 & _ & H)].
  - apply lift_Raise, getitem_raises in H. now subst.
  - apply lift_Raise, setitem_raises in H. exact H.
Qed.

Lemma flipbits_raises data howmanytimes howmanybits skipfirstbytes mask t e :
  flipbits data howmanytimes howmanybits skipfirstbytes mask t = Raise e ->
  retry_error e = false.
Proof.
  unfold flipbits.
  apply (times_raises (fun e => retry_error e = false)).
  intros a t0 e0 H. unfold flip_round in H.
  apply rbind_Raise in H as [H | (targetbyte & t1 & _ & H)].
  - destruct (truthy _).
    + apply choice_raises in H. now subst.
    + apply randint_raises in H. now subst.
  - revert H. apply (times_raises (fun e => retry_error e = false)).
    intros a1 t2 e1. apply flip_bit_raises.
Qed.

Lemma mosh_segment_raises typ qt im ret s t e :
  mosh_segment typ qt im ret s t = Raise e -> retry_error e = false.
Proof.
  unfold mosh_segment.
  destruct (marker s =? DQT); [|destruct (marker s =? SOS)].
  - destruct (negb _); [|discriminate].
    intros H. apply rbind_Raise in H as [H | (c & t1 & _ & H)];
      [now apply flipbits_raises in H | discriminate].
  - destruct (negb _); [|discriminate].
    intros H. apply rbind_Raise in H as [H | (c & t1 & _ & H)];
      [now apply flipbits_raises in H | discriminate].
  - destruct (_ && _); discriminate.
Qed.

Lemma mosh_segments_raises typ qt im segs ret t e :
  mosh_segments typ qt im segs ret t = Raise e -> retry_error e = false.
Proof.
  revert ret t. induction segs as [|s segs IH]; intros ret t H; simpl in H.
  - discriminate.
  - apply rbind_Raise in H as [H | (ret' & t1 & _ & H)];
      [now apply mosh_segment_raises in H | eauto].
Qed.

(** Building a candidate never raises the retry error. *)
Lemma candidate_raises jpegdata typ qt im t e :
  candidate jpegdata typ qt im t = Raise e -> retry_error e = false.
Proof.
  unfold candidate.
  pose proof (read_structure_end jpegdata false) as Hend.
  destruct (read_structure jpegdata false) as [segs x]. simpl in Hend.
  intros H. apply rbind_Raise in H as [H | (ret & t1 & _ & H)];
    [now apply mosh_segments_raises in H|].
  destruct x as [| |x|]; try discriminate.
  unfold raise in H. injection H as <-.
  destruct Hend as [_ Hb]. apply body_raises in Hb. now subst.
Qed.

(** *** The pieces of a candidate *)

Lemma mosh_segment_piece typ qt im ret s t ret' t' :
  mosh_segment typ qt im ret s t = Ok (ret', t') ->
  exists piece, concat ret' = concat ret ++ piece /\ piece_of s piece.
Proof.
  unfold mosh_segment, piece_of, passed_through, stripped.
  destruct (marker s =? DQT) eqn:Hq; [|destruct (marker s =? SOS) eqn:Hs].
  - assert (Hst : (225 <=? marker s) && (marker s <=? 239) = false).
    { apply Z.eqb_eq in Hq. rewrite Hq. reflexivity. }
    rewrite Hst. simpl.
    destruct (negb _); intros H.
    + apply rbind_Ok in H as (c & t1 & Hflip & H).
      apply ret_Ok in H as [-> _]. exists c.
      rewrite concat_app. simpl. rewrite app_nil_r.
      apply flipbits_keeps_length in Hflip. repeat split; congruence.
    + apply ret_Ok in H as [-> _]. exists (segdata s).
      rewrite concat_app. simpl. rewrite app_nil_r.
      repeat split; congruence.
  - assert (Hst : (225 <=? marker s) && (marker s <=? 239) = false).
    { apply Z.eqb_eq in Hs. rewrite Hs. reflexivity. }
    rewrite Hst. simpl.
    destruct (negb _); intros H.
    + apply rbind_Ok in H as (c & t1 & Hflip & H).
      apply ret_Ok in H as [-> _]. exists c.
      rewrite concat_app. simpl. rewrite app_nil_r.
      apply flipbits_keeps_length in Hflip. repeat split; congruence.
    + apply ret_Ok in H as [-> _]. exists (segdata s).
      rewrite concat_app. simpl. rewrite app_nil_r.
      repeat split; congruence.
  - rewrite !Z.geb_leb.
    destruct ((225 <=? marker s) && (marker s <=? 239)); intros H;
      apply ret_Ok in H as [-> _].
    + exists []. rewrite app_nil_r. repeat split; simpl; congruence.
    + exists (segdata s). rewrite concat_app. simpl. rewrite app_nil_r.
      repeat split; congruence.
Qed.

Lemma mosh_segments_pieces typ qt im segs ret t ret' t' :
  mosh_segments typ qt im segs ret t = Ok (ret', t') ->
  exists pieces,
    concat ret' = concat ret ++ concat pieces /\ Forall2 piece_of segs pieces.
Proof.
  revert ret t. induction segs as [|s segs IH]; intros ret t H; simpl in H.
  - apply ret_Ok in H as [-> _]. exists []. simpl.
    now rewrite app_nil_r.
  - apply rbind_Ok in H as (ret1 & t1 & Hs & H).
    apply mosh_segment_piece in Hs as (piece & Hcat & Hpiece).
    apply IH in H as (pieces & Hcat' & Hall).
    exists (piece :: pieces). split; [|now constructor].
    simpl. rewrite Hcat', Hcat. now rewrite app_assoc.
Qed.

Lemma candidate_pieces jpegdata typ qt im t out t' :
  candidate jpegdata typ qt im t = Ok (out, t') ->
  exists pieces,
    out = concat pieces
    /\ Forall2 piece_of (yielded (read_structure jpegdata false)) pieces.
Proof.
  unfold candidate, yielded.
  destruct (read_structure jpegdata false) as [segs x]. simpl.
  intros H. apply rbind_Ok in H as (ret & t1 & Hsegs & H).
  apply mosh_segments_pieces in Hsegs as (pieces & Hcat & Hall).
  exists pieces. split; [|assumption].
  destruct x; try discriminate; apply ret_Ok in H as [-> _]; exact Hcat.
Qed.

(** What [mosh_jpeg_data] returns is one of the candidates. *)
Lemma attempts_returns decode n jpegdata typ qt im validate m t out t' :
  attempts decode n jpegdata typ qt im validate m t = Ok (out, t') ->
  exists t0, candidate jpegdata typ qt im t0 = Ok (out, t').
Proof.
  revert t. induction n as [|n IH]; intros t H; simpl in H.
  - discriminate.
  - apply rbind_Ok in H as (c & t1 & Hc & H).
    destruct (negb validate).
    + apply ret_Ok in H as [-> ->]. eauto.
    + destruct (decode c).
      * apply ret_Ok in H as [-> ->]. eauto.
      * eauto.
Qed.

(** C6.  Whatever the mode and the parameters, what [mosh_jpeg_data]
    returns is made of one piece for each tuple [read_structure] yields,
    in order: no byte for a tuple whose marker is in 0xE1..0xEF, the
    tuple's bytes unchanged for every tuple that is neither that nor a
    quantization table nor a Start-Of-Scan (so for marker 0xE0). *)
Theorem mosh_strips_and_passes (decode : bytes -> bool) (jpegdata : bytes)
  (typ : Z) (qt im : Z * Z) (validate : bool) (validate_maxtries : Z)
  (t : tape) (out : bytes) (t' : tape) :
  mosh_jpeg_data decode jpegdata typ qt im validate validate_maxtries t
    = Ok (out, t') ->
  exists pieces,
    out = concat pieces
    /\ Forall2 piece_of (yielded (read_structure jpegdata false)) pieces.
Proof.
  unfold mosh_jpeg_data. intros H.
  apply attempts_returns in H as (t0 & H).
  eapply candidate_pieces. exact H.
Qed.

Lemma mosh_strips_and_passes_witness :
  exists pieces,
    [xff; xd8; xff; xfe; x00; x03; x68; xff; xd9] = concat pieces
    /\ Forall2 piece_of (yielded (read_structure app1_jpeg false)) pieces.
Proof.
  apply (mosh_strips_and_passes (fun _ => true) app1_jpeg 3 (2, 1) (15, 1)
           false 10 [] [xff; xd8; xff; xfe; x00; x03; x68; xff; xd9] []).
  reflexivity.
Defined.

(** *** The retry loop *)

Lemma attempts_no_validation decode n jpegdata typ qt im m t :
  attempts decode (S n) jpegdata typ qt im false m t
  = candidate jpegdata typ qt im t.
Proof.
  simpl. unfold Rand.bind, Rand.ret.
  destruct (candidate jpegdata typ qt im t) as [[c t1]|e]; reflexivity.
Qed.

Lemma attempts_exhausted decode n jpegdata typ qt im m t :
  attempts decode n jpegdata typ qt im true m t = Raise (ValueError (NoValidData m))
  <-> length (candidates n jpegdata typ qt im t) = n
      /\ forall c, In c (candidates n jpegdata typ qt im t) -> decode c = false.
Proof.
  revert t. induction n as [|n IH]; intros t; simpl.
  - unfold raise. split; [intros _; split; [reflexivity | intros c []] | reflexivity].
  - unfold Rand.bind.
    destruct (candidate jpegdata typ qt im t) as [[c t1]|e] eqn:Hc; simpl.
    + destruct (decode c) eqn:Hd.
      * unfold Rand.ret. split; [discriminate|].
        intros [_ Hall]. specialize (Hall c (or_introl eq_refl)). congruence.
      * rewrite IH. split.
        -- intros [Hlen Hall]. split; [congruence|].
           intros c' [<-|Hin]; auto.
        -- intros [Hlen Hall]. split; [congruence|]. auto.
    + split; [|intros [Hlen _]; discriminate].
      intros [= ->]. apply candidate_raises in Hc. discriminate.
Qed.

Lemma attempts_first_valid decode n jpegdata typ qt im m t c :
  List.find decode (candidates n jpegdata typ qt im t) = Some c ->
  exists t', attempts decode n jpegdata typ qt im true m t = Ok (c, t').
Proof.
  revert t. induction n as [|n IH]; intros t; simpl; [discriminate|].
  unfold Rand.bind.
  destruct (candidate jpegdata typ qt im t) as [[c0 t1]|e]; simpl;
    [|discriminate].
  destruct (decode c0).
  - intros [= ->]. unfold Rand.ret. eauto.
  - apply IH.
Qed.

(** With no try allowed the call raises the retry error, whether it
    validates or not: the loop that builds the candidates is not
    entered. *)
Lemma mosh_no_tries decode jpegdata typ qt im validate validate_maxtries t :
  validate_maxtries <= 0 ->
  mosh_jpeg_data decode jpegdata typ qt im validate validate_maxtries t
  = Raise (ValueError (NoValidData validate_maxtries)).
Proof.
  intros Hm. unfold mosh_jpeg_data.
  replace (Z.to_nat validate_maxtries) with 0%nat by lia. reflexivity.
Qed.

(** C7, as amended.  With [validate] false and at least one try allowed,
    the call is the building of the first candidate: it returns that
    candidate, or raises what building it raised.  With [validate] true,
    for every number of tries, it raises the retry error exactly when
    all the candidates of the allowed tries get built and none of them
    passes the decoder, and it returns the first candidate that passes
    when there is one. *)
Theorem mosh_validation (decode : bytes -> bool) (jpegdata : bytes)
  (typ : Z) (qt im : Z * Z) (validate_maxtries : Z) (t : tape) :
  (1 <= validate_maxtries ->
   mosh_jpeg_data decode jpegdata typ qt im false validate_maxtries t
   = candidate jpegdata typ qt im t)
  /\ (mosh_jpeg_data decode jpegdata typ qt im true validate_maxtries t
      = Raise (ValueError (NoValidData validate_maxtries))
      <-> length (candidates (Z.to_nat validate_maxtries) jpegdata typ qt im t)
          = Z.to_nat validate_maxtries
          /\ forall c,
               In c (candidates (Z.to_nat validate_maxtries) jpegdata typ qt im t) ->
               decode c = false)
  /\ (forall c,
        List.find decode (candidates (Z.to_nat validate_maxtries) jpegdata typ qt im t)
        = Some c ->
        exists t',
          mosh_jpeg_data decode jpegdata typ qt im true validate_maxtries t
          = Ok (c, t')).
Proof.
  unfold mosh_jpeg_data. split; [|split].
  - intros Hm. destruct (Z.to_nat validate_maxtries) as [|n] eqn:E; [lia|].
    apply attempts_no_validation.
  - apply attempts_exhausted.
  - intros c. apply attempts_first_valid.
Qed.

(** C7 as stated fails: on a lone 0xFF no candidate gets built, and the
    call raises the [IndexError] of [read_structure], which is neither a
    return of a first candidate nor the retry error. *)
Lemma mosh_validation_counterexample :
  mosh_jpeg_data (fun _ => true) lone_ff 3 (2, 1) (15, 1) false 10 []
  = Raise IndexError
  /\ mosh_jpeg_data (fun _ => false) lone_ff 3 (2, 1) (15, 1) true 10 []
     = Raise IndexError.
Proof. split; reflexivity. Qed.

(** Runs of the retry loop on [small_jpeg] with both modes off: a
    decoder that refuses everything uses up the tries, one that accepts
    gets the first candidate back. *)
Example mosh_retries_exhausted :
  mosh_jpeg_data (fun _ => false) small_jpeg 0 (0, 0) (0, 0) true 3 []
  = Raise (ValueError (NoValidData 3)).
Proof. reflexivity. Qed.

Example mosh_first_valid :
  mosh_jpeg_data (fun _ => true) small_jpeg 0 (0, 0) (0, 0) true 3 []
  = Ok (small_jpeg, []).
Proof. reflexivity. Qed.

Example mosh_no_tries_no_validation :
  mosh_jpeg_data (fun _ => true) small_jpeg 0 (0, 0) (0, 0) false 0 []
  = Raise (ValueError (NoValidData 0)).
Proof. reflexivity. Qed.

(** *** The quantization tables *)

(** The mask of lines 467-471 holds the indices 5 to 71 and nothing
    below 5. *)
Lemma dqt_mask_indices :
  forallb (fun index => (5 <=? index) && (index <=? 71)) dqt_mask = true.
Proof. reflexivity. Qed.

(** C5 fails on the code.  The mask is built and then not handed to
    [flipbits]: the call of line 473 gives [skipfirstbytes=4] only, so
    the target is drawn from index 4 on.  With mode 1, one flip of one
    bit and a generator whose draws reduce to 0, the byte at index 4 of
    the quantization-table tuple (its precision/identifier byte, which
    the mask leaves out) goes from 0x00 to 0x01. *)
Theorem dqt_prefix_byte_flipped (decode : bytes -> bool) :
  mosh_jpeg_data decode dqt_jpeg 1 (1, 1) (0, 0) false 10 [0; 0]
  = Ok (soi_bytes ++ ([xff; xdb; x00; x43; x01] ++ repeat x01 64) ++ eoi_bytes,
        [])
  /\ dqt_segment = [xff; xdb; x00; x43; x00] ++ repeat x01 64
  /\ existsb (Z.eqb 4) dqt_mask = false.
Proof. repeat split. Qed.

(* ================================================================== *)
(** ** The scanner: further properties *)

Lemma read_structure_ended jpeg_data debug segs e :
  read_structure jpeg_data debug = (segs, e) -> e <> OutOfFuel.
Proof.
  intros H. pose proof (read_structure_fuel jpeg_data debug) as Hf.
  rewrite H in Hf. exact Hf.
Qed.

(** A scan that starts at or past the end yields nothing. *)
Lemma scan_past_end fuel debug jpeg_data i post e :
  len jpeg_data <= i -> e <> OutOfFuel ->
  scan fuel debug jpeg_data i = (post, e) -> post = [] /\ e = Finished.
Proof.
  intros Hi He. destruct fuel as [|fuel]; simpl.
  - intros [= <- <-]. congruence.
  - destruct (Z.ltb_spec i (len jpeg_data)); [lia|].
    intros [= <- <-]. auto.
Qed.

Lemma dispatch_fixed jpeg_data i m n d mv loc :
  fixed_size m = Some n ->
  dispatch jpeg_data i m = Ok (d, mv, loc) -> mv = n.
Proof.
  intros Hn.
  destruct (dispatch_cases jpeg_data i m)
    as [(n' & d' & Hn' & ->) | [(_ & Hf & _) | (Hc & _)]].
  - intros [= <- <- <-]. congruence.
  - congruence.
  - unfold codes_length in Hc. rewrite Hn in Hc. discriminate.
Qed.

(** The size of the tuples of fixed size: 2 for Start-Of-Image,
    End-Of-Image, the eight restart markers and the markers 0x30..0x3F,
    6 for the restart interval. *)
Theorem yielded_fixed_size (jpeg_data : bytes) (debug : bool)
  (pre : list segment) (s : segment) (post : list segment) (e : ending) :
  read_structure jpeg_data debug = (pre ++ s :: post, e) ->
  (marker s = 0xd8 \/ marker s = 0xd9 \/ 0xd0 <= marker s <= 0xd7
   \/ 0x30 <= marker s <= 0x3f -> moveon s = 2)
  /\ (marker s = 0xdd -> moveon s = 6).
Proof.
  intros H.
  apply read_structure_split in H as (_ & _ & Hb & _).
  apply body_yields in Hb as (_ & m & loc & _ & Hmk & Hd & _).
  rewrite <- Hmk in Hd. split; intros Hm.
  - eapply dispatch_fixed; [|exact Hd].
    unfold fixed_size, SOI, EOI.
    replace ((marker s =? 216) || (marker s =? 217)
             || (208 <=? marker s) && (marker s <=? 215)
             || (48 <=? marker s) && (marker s <=? 63)) with true;
      [reflexivity|].
    symmetry. rewrite !orb_true_iff, !andb_true_iff, !Z.eqb_eq, !Z.leb_le.
    lia.
  - eapply dispatch_fixed; [|exact Hd]. rewrite Hm. reflexivity.
Qed.

Lemma yielded_fixed_size_witness :
  (0xd8 = 0xd8 \/ 0xd8 = 0xd9 \/ 0xd0 <= 0xd8 <= 0xd7
   \/ 0x30 <= 0xd8 <= 0x3f -> 2 = 2)
  /\ (0xd8 = 0xdd -> 2 = 6).
Proof.
  apply (yielded_fixed_size small_jpeg false []
           (mk_segment 0xd8 (Text "Start Of Image") 2 [xff; xd8])
           [mk_segment 0xe0 (AppText 0 [x41]) 6
                       [xff; xe0; x00; x04; x41; x00];
            mk_segment 0xda (Text "start of scan") 7
                       [xff; xda; x00; x02; x00; x11; x22];
            mk_segment 0xd9 (Text "End Of Image") 2 [xff; xd9]]
           Finished).
  reflexivity.
Defined.

(** Every yielded tuple moves the cursor on by at least 2, and its
    bytes begin with 0xFF and the marker byte, which is the tuple's
    first element. *)
Theorem yielded_marker_bytes (jpeg_data : bytes) (debug : bool)
  (pre : list segment) (s : segment) (post : list segment) (e : ending) :
  read_structure jpeg_data debug = (pre ++ s :: post, e) ->
  2 <= moveon s
  /\ getitem (segdata s) 0 = Ok xff
  /\ exists m, getitem (segdata s) 1 = Ok m /\ marker s = ord m.
Proof.
  intros H.
  apply read_structure_split in H as (Hpre & Hlt & Hb & _).
  pose proof (body_moveon _ _ _ _ Hpre Hb) as Hmv.
  apply body_yields in Hb as (H0 & m & loc & H1 & Hmk & _ & Hseg).
  apply getitem_Ok_lt in H1 as Hlt1; [|lia].
  split; [exact Hmv|]. rewrite Hseg. split.
  - rewrite getitem_slice by lia. now rewrite Z.add_0_r.
  - exists m. split; [|exact Hmk]. now rewrite getitem_slice by lia.
Qed.

Lemma yielded_marker_bytes_witness :
  2 <= 6
  /\ getitem [xff; xe0; x00; x04; x41; x00] 0 = Ok xff
  /\ exists m, getitem [xff; xe0; x00; x04; x41; x00] 1 = Ok m
               /\ 0xe0 = ord m.
Proof.
  apply (yielded_marker_bytes small_jpeg false
           [mk_segment 0xd8 (Text "Start Of Image") 2 [xff; xd8]]
           (mk_segment 0xe0 (AppText 0 [x41]) 6
                       [xff; xe0; x00; x04; x41; x00])
           [mk_segment 0xda (Text "start of scan") 7
                       [xff; xda; x00; x02; x00; x11; x22];
            mk_segment 0xd9 (Text "End Of Image") 2 [xff; xd9]]
           Finished).
  reflexivity.
Defined.

Lemma scan_count fuel debug jpeg_data i segs e :
  0 <= i ->
  scan fuel debug jpeg_data i = (segs, e) ->
  segs = [] \/ i + 2 * len segs <= len jpeg_data + 1.
Proof.
  revert fuel i. induction segs as [|s segs IH]; intros fuel i Hi H.
  - now left.
  - right. apply scan_cons in H as (fuel' & -> & Hlt & Hb & H).
    pose proof (body_moveon _ _ _ _ Hi Hb) as Hmv.
    assert (Hi' : 0 <= i + moveon s) by lia.
    destruct (IH _ _ Hi' H) as [-> | Hrest].
    + unfold len in *. simpl. lia.
    + unfold len in *. simpl length. lia.
Qed.

(** A call yields at most one tuple for every two bytes of the buffer
    (rounded up). *)
Theorem yielded_count_bound (jpeg_data : bytes) (debug : bool) :
  2 * len (yielded (read_structure jpeg_data debug)) <= len jpeg_data + 1.
Proof.
  unfold yielded, read_structure.
  destruct (scan _ _ _ _) as [segs e] eqn:H. cbn [fst].
  apply scan_count in H; [|lia]. destruct H as [-> | H]; [|lia].
  pose proof (len_nonneg jpeg_data). change (len (@nil segment)) with 0. lia.
Qed.

Lemma endswith_eoi_items (jpeg_data : bytes) :
  endswith jpeg_data eoi_bytes = true ->
  2 <= len jpeg_data
  /\ getitem jpeg_data (len jpeg_data - 2) = Ok xff
  /\ getitem jpeg_data (len jpeg_data - 2 + 1) = Ok xd9
  /\ slice jpeg_data (len jpeg_data - 2) (len jpeg_data - 2 + 2) = eoi_bytes.
Proof.
  intros H. apply endswith_true in H as [Hle Htail].
  change (len eoi_bytes) with 2 in Hle. change (length eoi_bytes) with 2%nat in Htail.
  assert (Hn : Z.to_nat (len jpeg_data - 2) = (length jpeg_data - 2)%nat)
    by (unfold len; lia).
  split; [exact Hle|]. repeat split.
  - rewrite getitem_nonneg by lia. rewrite Hn.
    rewrite <- (Nat.add_0_r (length jpeg_data - 2)), <- nth_error_skipn, Htail.
    reflexivity.
  - rewrite getitem_nonneg by lia.
    replace (Z.to_nat (len jpeg_data - 2 + 1))
      with ((length jpeg_data - 2) + 1)%nat by (unfold len in *; lia).
    rewrite <- nth_error_skipn, Htail. reflexivity.
  - rewrite slice_to_end by lia. now rewrite Hn.
Qed.

(** The pass on a trailing End-Of-Image marker. *)
Lemma body_on_eoi debug jpeg_data :
  endswith jpeg_data eoi_bytes = true ->
  body debug jpeg_data (len jpeg_data - 2) = Ok (Some eoi_segment).
Proof.
  intros H. apply endswith_eoi_items in H as (_ & H0 & H1 & Hs).
  unfold body. rewrite H0. simpl Py.bind.
  change (negb (ord xff =? 255)) with false. cbv iota.
  rewrite H1. simpl Py.bind.
  change (dispatch jpeg_data (len jpeg_data - 2) (ord xd9))
    with (@Ok (description * Z * bytes) (Text "End Of Image", 2, [])).
  cbv beta iota.
  replace (if debug then debug_block (ord xd9) [] else Ok tt) with (Ok tt)
    by (destruct debug; reflexivity).
  cbv beta iota delta [Py.bind]. rewrite Hs. reflexivity.
Qed.

(** A yielded Start-Of-Scan tuple takes everything up to the end: after
    it the scan ends by its loop test, having yielded the trailing
    End-Of-Image tuple when the buffer ends with that marker and
    nothing otherwise. *)
Theorem sos_is_last (jpeg_data : bytes) (debug : bool)
  (pre : list segment) (s : segment) (post : list segment) (e : ending) :
  read_structure jpeg_data debug = (pre ++ s :: post, e) ->
  marker s = SOS ->
  e = Finished
  /\ (endswith jpeg_data eoi_bytes = true -> post = [eoi_segment])
  /\ (endswith jpeg_data eoi_bytes = false -> post = []).
Proof.
  intros H Hm. pose proof (read_structure_ended _ _ _ _ H) as He.
  apply read_structure_split in H as (Hpre & Hlt & Hb & fuel' & Hrest).
  apply body_yields in Hb as (_ & m & loc & _ & Hmk & Hd & _).
  rewrite Hm in Hmk.
  assert (m = xda) by (apply ord_inj; symmetry; exact Hmk). subst m.
  destruct (dispatch_cases jpeg_data (advance pre) (ord xda))
    as [(n & d & Hn & _) | [(_ & _ & Hsos) | (Hc & _)]];
    [discriminate | | discriminate].
  rewrite Hsos in Hd. apply bind_Ok in Hd as (u & _ & Hd).
  destruct (endswith jpeg_data eoi_bytes) eqn:Hends.
  - injection Hd as _ Hmv _. rewrite <- Hmv in Hrest.
    replace (advance pre + (len jpeg_data - advance pre - 2))
      with (len jpeg_data - 2) in Hrest by lia.
    destruct fuel' as [|fuel']; simpl in Hrest;
      [injection Hrest as _ <-; congruence|].
    destruct (Z.ltb_spec (len jpeg_data - 2) (len jpeg_data)); [|lia].
    rewrite body_on_eoi in Hrest by assumption.
    destruct (scan fuel' debug jpeg_data (len jpeg_data - 2 + moveon eoi_segment))
      as [rest e'] eqn:Hlast.
    injection Hrest as <- <-.
    apply scan_past_end in Hlast as [-> ->]; [| simpl; lia | assumption].
    repeat split; congruence.
  - injection Hd as _ Hmv _. rewrite <- Hmv in Hrest.
    apply scan_past_end in Hrest as [-> ->]; [|lia|assumption].
    repeat split; congruence.
Qed.

Lemma sos_is_last_witness :
  Finished = Finished
  /\ (endswith small_jpeg eoi_bytes = true ->
      [mk_segment 0xd9 (Text "End Of Image") 2 [xff; xd9]] = [eoi_segment])
  /\ (endswith small_jpeg eoi_bytes = false ->
      [mk_segment 0xd9 (Text "End Of Image") 2 [xff; xd9]] = []).
Proof.
  apply (sos_is_last small_jpeg false
           [mk_segment 0xd8 (Text "Start Of Image") 2 [xff; xd8];
            mk_segment 0xe0 (AppText 0 [x41]) 6
                       [xff; xe0; x00; x04; x41; x00]]
           (mk_segment 0xda (Text "start of scan") 7
                       [xff; xda; x00; x02; x00; x11; x22])
           [mk_segment 0xd9 (Text "End Of Image") 2 [xff; xd9]]
           Finished); reflexivity.
Defined.

Lemma read_structure_cursor jpeg_data debug :
  0 <= advance (yielded (read_structure jpeg_data debug)).
Proof.
  unfold yielded, read_structure.
  destruct (scan _ _ _ _) as [segs e] eqn:H.
  eapply scan_advance in H; [exact H | lia].
Qed.

(** Whatever the buffer begins and ends with, the yielded bytes put
    together are the buffer exactly when the scan ended by its loop
    test, and not by the [break] or an exception. *)
Theorem roundtrip_iff_finished (jpeg_data : bytes) (debug : bool) :
  reassemble (yielded (read_structure jpeg_data debug)) = jpeg_data
  <-> how_ended (read_structure jpeg_data debug) = Finished.
Proof.
  pose proof (read_structure_end jpeg_data debug) as Hend.
  pose proof (read_structure_fuel jpeg_data debug) as Hfuel.
  pose proof (read_structure_cursor jpeg_data debug) as Hn.
  rewrite reassemble_prefix.
  set (n := advance (yielded (read_structure jpeg_data debug))) in *.
  split.
  - intros Heq. apply (f_equal len) in Heq.
    rewrite len_slice in Heq by lia.
    pose proof (len_nonneg jpeg_data).
    destruct (how_ended (read_structure jpeg_data debug)); simpl in Hend;
      (reflexivity || congruence || lia).
  - intros Hfin. rewrite Hfin in Hend. simpl in Hend. now apply slice_all.
Qed.

(** When the scan ends by the [break], the buffer is the yielded bytes
    followed by a byte that is not 0xFF and whatever comes after it. *)
Theorem stopped_leaves_rest (jpeg_data : bytes) (debug : bool) :
  how_ended (read_structure jpeg_data debug) = Stopped ->
  exists b rest,
    jpeg_data = reassemble (yielded (read_structure jpeg_data debug)) ++ b :: rest
    /\ b <> xff.
Proof.
  intros Hs.
  pose proof (read_structure_end jpeg_data debug) as Hend.
  pose proof (read_structure_cursor jpeg_data debug) as Hn.
  rewrite Hs in Hend. simpl in Hend. destruct Hend as [Hlt Hb].
  apply body_stops in Hb as (b & Hb & Hne).
  rewrite reassemble_prefix.
  set (n := advance (yielded (read_structure jpeg_data debug))) in *.
  rewrite getitem_nonneg in Hb by assumption.
  destruct (nth_error jpeg_data (Z.to_nat n)) as [b'|] eqn:Hnth;
    [|discriminate].
  injection Hb as ->.
  apply nth_error_split in Hnth as (l1 & l2 & Hsplit & Hlen).
  exists b, l2. split; [|exact Hne].
  rewrite slice_nonneg by lia.
  rewrite Z.min_l, Z.min_l by lia. simpl.
  rewrite Nat.sub_0_r. rewrite Hsplit at 1. f_equal.
  rewrite Hsplit, <- Hlen, firstn_app, Nat.sub_diag, firstn_all. simpl.
  now rewrite app_nil_r.
Qed.

Lemma stopped_leaves_rest_witness :
  exists b rest,
    stray_byte_jpeg
    = reassemble (yielded (read_structure stray_byte_jpeg false)) ++ b :: rest
    /\ b <> xff.
Proof.
  apply (stopped_leaves_rest stray_byte_jpeg false). reflexivity.
Defined.

(** A yielded tuple with fewer bytes than its size is the last one, and
    the scan ends by its loop test after it. *)
Theorem short_tuple_is_last (jpeg_data : bytes) (debug : bool)
  (pre : list segment) (s : segment) (post : list segment) (e : ending) :
  read_structure jpeg_data debug = (pre ++ s :: post, e) ->
  len (segdata s) < moveon s ->
  post = [] /\ e = Finished.
Proof.
  intros H Hshort. pose proof (read_structure_ended _ _ _ _ H) as He.
  apply read_structure_split in H as (Hpre & Hlt & Hb & fuel' & Hrest).
  pose proof (body_moveon _ _ _ _ Hpre Hb) as Hmv.
  apply body_yields in Hb as (_ & m & loc & _ & _ & _ & Hseg).
  rewrite Hseg, len_slice in Hshort by lia.
  eapply scan_past_end; [|exact He|exact Hrest]. lia.
Qed.

Lemma short_tuple_is_last_witness :
  @nil segment = [] /\ Finished = Finished.
Proof.
  apply (short_tuple_is_last cut_dri false []
           (mk_segment 0xdd (Text "restart interval") 6 [xff; xdd])
           [] Finished); [reflexivity | vm_compute; reflexivity].
Defined.

(** *** The debug flag *)

Lemma body_debug jpeg_data i r :
  body true jpeg_data i = Ok r -> body false jpeg_data i = Ok r.
Proof.
  unfold body.
  destruct (getitem jpeg_data i) as [b|]; [simpl|discriminate].
  destruct (negb (ord b =? 255)); [auto|].
  destruct (getitem jpeg_data (i + 1)) as [m|]; [simpl|discriminate].
  destruct (dispatch jpeg_data i (ord m)) as [[[d mv] loc]|];
    [simpl|discriminate].
  destruct (debug_block (ord m) loc) as [[]|]; [auto|discriminate].
Qed.

Lemma scan_debug fuel jpeg_data i :
  (exists rest,
     fst (scan fuel false jpeg_data i) = fst (scan fuel true jpeg_data i) ++ rest)
  /\ ((forall x, snd (scan fuel true jpeg_data i) <> Raised x) ->
      scan fuel true jpeg_data i = scan fuel false jpeg_data i).
Proof.
  revert i. induction fuel as [|fuel IH]; intros i; simpl.
  - split; [exists []; reflexivity | reflexivity].
  - destruct (i <? len jpeg_data); [|split; [exists []|]; reflexivity].
    destruct (body true jpeg_data i) as [[s|]|x] eqn:Ht.
    + rewrite (body_debug _ _ _ Ht).
      destruct (IH (i + moveon s)) as [[rest Hrest] Heq].
      destruct (scan fuel true jpeg_data (i + moveon s)) as [st et].
      destruct (scan fuel false jpeg_data (i + moveon s)) as [sf ef].
      simpl in *. split.
      * exists rest. now rewrite Hrest.
      * intros Hno. specialize (Heq Hno). now injection Heq as -> ->.
    + rewrite (body_debug _ _ _ Ht). split; [exists []|]; reflexivity.
    + simpl. split; [eauto|]. intros Hno. now destruct (Hno x).
Qed.

(** With [debug] set the same tuples are yielded as without it, up to
    the point where a read of the debug block raises: what a call with
    [debug] yields begins what the call without yields, and when the
    call with [debug] raises nothing the two calls agree. *)
Theorem debug_yields_prefix (jpeg_data : bytes) :
  (exists rest,
     yielded (read_structure jpeg_data false)
     = yielded (read_structure jpeg_data true) ++ rest)
  /\ ((forall x, how_ended (read_structure jpeg_data true) <> Raised x) ->
      read_structure jpeg_data true = read_structure jpeg_data false).
Proof.
  unfold yielded, how_ended, read_structure. apply scan_debug.
Qed.

(* ================================================================== *)
(** ** flipbits: further properties *)

Lemma draw_returns t : exists r t', draw t = Ok (r, t').
Proof. destruct t as [|r t]; simpl; eauto. Qed.

Lemma randint_returns a b t :
  a <= b -> exists r t', randint a b t = Ok (r, t') /\ a <= r <= b.
Proof.
  intros Hab. unfold randint.
  destruct (Z.ltb_spec 0 (b + 1 - a)) as [Hw|]; [|lia].
  unfold Rand.bind. destruct (draw_returns t) as (r & t' & ->).
  unfold Rand.ret. do 2 eexists. split; [reflexivity|].
  pose proof (Z.mod_pos_bound r (b + 1 - a) Hw). lia.
Qed.

Lemma choice_Ok {A} (seq : list A) t x t' :
  choice seq t = Ok (x, t') -> In x seq.
Proof.
  unfold choice. destruct (len seq =? 0); [discriminate|].
  intros H. apply rbind_Ok in H as (r & t1 & _ & H).
  apply lift_Ok in H as [H _].
  pose proof (Z.mod_pos_bound r (len seq)) as Hr.
  destruct (Z.le_gt_cases 0 (r mod len seq)) as [Hpos|Hneg].
  - rewrite getitem_nonneg in H by assumption.
    destruct (nth_error seq (Z.to_nat (r mod len seq))) eqn:E; [|discriminate].
    injection H as ->. eapply nth_error_In. exact E.
  - unfold getitem in H.
    destruct (Z.ltb_spec (r mod len seq) 0); [|lia].
    destruct (Z.ltb_spec (r mod len seq + len seq) 0); [discriminate|].
    destruct (nth_error seq _) eqn:E; [|discriminate].
    injection H as ->. eapply nth_error_In. exact E.
Qed.

Lemma choice_returns {A} (seq : list A) t :
  seq <> [] -> exists x t', choice seq t = Ok (x, t').
Proof.
  intros Hne. unfold choice.
  assert (Hlen : 0 < len seq).
  { destruct seq; [congruence|]. unfold len. simpl. lia. }
  destruct (Z.eqb_spec (len seq) 0); [lia|].
  unfold Rand.bind. destruct (draw_returns t) as (r & t' & ->).
  pose proof (Z.mod_pos_bound r (len seq) Hlen) as Hr.
  destruct (getitem_inside seq (r mod len seq) Hr) as [x Hx].
  unfold lift. rewrite Hx. eauto.
Qed.

(** Flipping one of the eight bits of a byte gives a byte. *)
Lemma xor_in_byte v k :
  0 <= v < 256 -> 0 <= k <= 7 -> 0 <= Z.lxor v (2 ^ k) < 256.
Proof.
  intros Hv Hk.
  assert (Hp : 0 < 2 ^ k < 256).
  { split; [apply Z.pow_pos_nonneg; lia|].
    change 256 with (2 ^ 8). apply Z.pow_lt_mono_r; lia. }
  assert (Hnn : 0 <= Z.lxor v (2 ^ k)) by (apply Z.lxor_nonneg; lia).
  split; [exact Hnn|].
  destruct (Z.eq_dec (Z.lxor v (2 ^ k)) 0) as [->|Hnz]; [lia|].
  change 256 with (2 ^ 8). apply Z.log2_lt_pow2; [lia|].
  eapply Z.le_lt_trans; [apply Z.log2_lxor; lia|].
  apply Z.max_lub_lt.
  - destruct (Z.eq_dec v 0) as [->|]; [simpl; lia|].
    apply Z.log2_lt_pow2; [lia|]. change (2 ^ 8) with 256. lia.
  - apply Z.log2_lt_pow2; [lia|]. change (2 ^ 8) with 256. lia.
Qed.

Lemma setitem_returns (l : bytes) (i v : Z) :
  0 <= i < len l -> 0 <= v < 256 -> exists l', setitem l i v = Ok l'.
Proof.
  intros Hi Hv. unfold setitem.
  destruct (Z.ltb_spec i 0); [lia|].
  destruct (Z.ltb_spec i 0); [lia|].
  destruct (Z.leb_spec (len l) i); [lia|]. simpl.
  destruct (Z.ltb_spec v 0); [lia|].
  destruct (Byte.of_N (Z.to_N v)) as [b|] eqn:E; [eauto|].
  apply Byte.of_N_None_iff in E. lia.
Qed.

(** A flip at an index inside the object returns. *)
Lemma flip_bit_returns targetbyte retdata t :
  0 <= targetbyte < len retdata ->
  exists out t', flip_bit targetbyte retdata t = Ok (out, t').
Proof.
  intros Ht. unfold flip_bit, Rand.bind.
  destruct (randint_returns 0 7 t) as (bitnum & t1 & -> & Hbit); [lia|].
  destruct (getitem_inside retdata targetbyte Ht) as [old Hold].
  unfold lift at 1. rewrite Hold.
  destruct (setitem_returns retdata targetbyte (Z.lxor (ord old) (2 ^ bitnum)) Ht)
    as [l' Hl'].
  { apply xor_in_byte; [apply ord_range | exact Hbit]. }
  unfold lift. rewrite Hl'. eauto.
Qed.

(** A loop whose passes return on every value that satisfies what the
    loop keeps returns. *)
Lemma times_returns {A} (P : A -> Prop) (n : nat) (body : A -> rand A) :
  (forall a t, P a -> exists a' t', body a t = Ok (a', t') /\ P a') ->
  forall a t, P a -> exists a' t', times n body a t = Ok (a', t') /\ P a'.
Proof.
  intros Hbody. induction n as [|n IH]; intros a t Ha; simpl.
  - unfold Rand.ret. eauto.
  - unfold Rand.bind.
    destruct (Hbody a t Ha) as (a1 & t1 & -> & Ha1). apply IH. exact Ha1.
Qed.

Lemma flip_bits_return targetbyte (n : nat) (data retdata : bytes) t :
  0 <= targetbyte < len data -> length retdata = length data ->
  exists out t',
    times n (flip_bit targetbyte) retdata t = Ok (out, t')
    /\ length out = length data.
Proof.
  intros Ht Hlen.
  apply (times_returns (fun l => length l = length data)); [|exact Hlen].
  intros a t0 Ha.
  destruct (flip_bit_returns targetbyte a t0) as (out & t' & Hout).
  { unfold len. rewrite Ha. exact Ht. }
  exists out, t'. split; [exact Hout|].
  apply flip_bit_length in Hout. congruence.
Qed.

Lemma filter_mask_inside mask skipfirstbytes data index :
  In index (filter_mask mask skipfirstbytes data) ->
  In index mask /\ skipfirstbytes < index < len data.
Proof.
  unfold filter_mask. rewrite filter_In, andb_true_iff, !Z.ltb_lt. tauto.
Qed.

Lemma filter_mask_beyond mask skipfirstbytes data :
  len data <= skipfirstbytes + 1 -> filter_mask mask skipfirstbytes data = [].
Proof.
  intros Hshort. unfold filter_mask.
  induction mask as [|index mask IH]; simpl; [reflexivity|].
  destruct (Z.ltb_spec skipfirstbytes index);
    destruct (Z.ltb_spec index (len data)); simpl; (lia || exact IH).
Qed.

(** The target of a pass, for a mask as [flipbits] has filtered it. *)
Lemma target_returns (data : bytes) (skipfirstbytes : Z)
  (mask : option (list Z)) (t : tape) :
  0 <= skipfirstbytes < len data ->
  (forall m index, mask = Some m -> In index m -> 0 <= index < len data) ->
  exists targetbyte t',
    (if truthy mask
     then choice (match mask with Some m => m | None => [] end)
     else randint skipfirstbytes (len data - 1)) t = Ok (targetbyte, t')
    /\ 0 <= targetbyte < len data.
Proof.
  intros Hskip Hmask. destruct mask as [[|index m]|]; simpl truthy; cbv iota.
  - destruct (randint_returns skipfirstbytes (len data - 1) t)
      as (r & t' & Hr & Hin); [lia|]. exists r, t'. split; [exact Hr | lia].
  - destruct (choice_returns (index :: m) t) as (x & t' & Hx); [discriminate|].
    exists x, t'. split; [exact Hx|].
    apply choice_Ok in Hx. eapply Hmask; [reflexivity | exact Hx].
  - destruct (randint_returns skipfirstbytes (len data - 1) t)
      as (r & t' & Hr & Hin); [lia|]. exists r, t'. split; [exact Hr | lia].
Qed.

(** When [skipfirstbytes] is an index of the data, [flipbits] returns:
    no draw of the generator, no count and no mask makes it raise. *)
Theorem flipbits_returns (data : bytes)
  (howmanytimes howmanybits skipfirstbytes : Z) (mask : option (list Z))
  (t : tape) :
  0 <= skipfirstbytes < len data ->
  exists out t',
    flipbits data howmanytimes howmanybits skipfirstbytes mask t = Ok (out, t').
Proof.
  intros Hskip. unfold flipbits.
  set (mask' := if truthy mask
                then option_map (fun m => filter_mask m skipfirstbytes data) mask
                else mask).
  assert (Hmask : truthy mask' = true ->
                  forall m index, mask' = Some m -> In index m ->
                                  0 <= index < len data).
  { subst mask'. destruct mask as [[|i0 m0]|]; simpl; try discriminate.
    intros _ m index [= <-] Hin.
    apply (filter_mask_inside (i0 :: m0)) in Hin. lia. }
  clearbody mask'.
  destruct (times_returns (fun l => length l = length data)
              (Z.to_nat howmanytimes)
              (flip_round data howmanybits skipfirstbytes mask'))
    with (a := data) (t := t) as (out & t' & Hout & _); [|reflexivity|eauto].
  intros a t0 Ha. unfold flip_round, Rand.bind.
  assert (Htarget : exists targetbyte t',
             (if truthy mask'
              then choice (match mask' with Some m => m | None => [] end)
              else randint skipfirstbytes (len data - 1)) t0
             = Ok (targetbyte, t') /\ 0 <= targetbyte < len data).
  { destruct (truthy mask') eqn:Htr.
    - pose proof (target_returns data skipfirstbytes mask' t0 Hskip
                    (Hmask eq_refl)) as H. now rewrite Htr in H.
    - destruct (randint_returns skipfirstbytes (len data - 1) t0)
        as (r & t' & Hr & Hin); [lia|]. exists r, t'. split; [exact Hr | lia]. }
  destruct Htarget as (targetbyte & t1 & -> & Hin).
  apply flip_bits_return; assumption.
Qed.

Lemma flipbits_returns_witness :
  exists out t', flipbits [xff; xda; x00; x02] 3 2 1 (Some [2; 9]) [5; 1; 6] = Ok (out, t').
Proof.
  apply (flipbits_returns [xff; xda; x00; x02] 3 2 1 (Some [2; 9]) [5; 1; 6]).
  vm_compute. split; [discriminate | reflexivity].
Defined.

(** When the data has no index from [skipfirstbytes] on and at least
    one pass is asked for, [flipbits] raises the [ValueError] of
    [random.randint] on an empty range, whatever the mask. *)
Theorem flipbits_empty_range (data : bytes)
  (howmanytimes howmanybits skipfirstbytes : Z) (mask : option (list Z))
  (t : tape) :
  1 <= howmanytimes -> len data <= skipfirstbytes ->
  flipbits data howmanytimes howmanybits skipfirstbytes mask t
  = Raise (ValueError EmptyRange).
Proof.
  intros Hn Hshort. unfold flipbits.
  set (mask' := if truthy mask
                then option_map (fun m => filter_mask m skipfirstbytes data) mask
                else mask).
  assert (Hfalsy : truthy mask' = false).
  { subst mask'. destruct mask as [[|i0 m0]|]; try reflexivity.
    cbn [truthy option_map]. now rewrite filter_mask_beyond by lia. }
  clearbody mask'.
  destruct (Z.to_nat howmanytimes) as [|n] eqn:E; [lia|].
  simpl. unfold Rand.bind, flip_round at 1, Rand.bind. rewrite Hfalsy.
  unfold randint.
  destruct (Z.ltb_spec 0 (len data - 1 + 1 - skipfirstbytes)); [lia|].
  reflexivity.
Qed.

Lemma flipbits_empty_range_witness :
  flipbits [xff; xda; x00; x02] 1 1 20 None [0; 0] = Raise (ValueError EmptyRange).
Proof.
  apply (flipbits_empty_range [xff; xda; x00; x02] 1 1 20 None [0; 0]);
    vm_compute; discriminate.
Defined.

Lemma flip_bits_other targetbyte (n : nat) retdata t out t' (k : nat) :
  0 <= targetbyte -> Z.to_nat targetbyte <> k ->
  times n (flip_bit targetbyte) retdata t = Ok (out, t') ->
  nth_error out k = nth_error retdata k.
Proof.
  intros Hpos Hne.
  apply (times_invariant (fun l => nth_error l k = nth_error retdata k));
    [|reflexivity].
  intros a t0 a' t0' Ha Hstep.
  apply flip_bit_other with (k := k) in Hstep; [congruence | lia | exact Hne].
Qed.

(** A mask that keeps at least one index after the filter of line 447
    confines the flips: every byte of the result at an index that is not
    in the mask, or not above [skipfirstbytes], is the byte of the
    input. *)
Theorem flipbits_mask_only (data : bytes)
  (howmanytimes howmanybits skipfirstbytes : Z) (mask : list Z)
  (t : tape) (out : bytes) (t' : tape) :
  0 <= skipfirstbytes ->
  filter_mask mask skipfirstbytes data <> [] ->
  flipbits data howmanytimes howmanybits skipfirstbytes (Some mask) t
    = Ok (out, t') ->
  forall idx, 0 <= idx -> ~ In idx mask \/ idx <= skipfirstbytes ->
              getitem out idx = getitem data idx.
Proof.
  intros Hskip Hne H idx Hidx Hout.
  rewrite !getitem_nonneg by lia.
  enough (E : nth_error out (Z.to_nat idx) = nth_error data (Z.to_nat idx))
    by now rewrite E.
  revert H. unfold flipbits.
  assert (Htr : truthy (Some mask) = true).
  { destruct mask; [now destruct Hne | reflexivity]. }
  rewrite Htr. cbn [option_map].
  set (kept := filter_mask mask skipfirstbytes data) in *.
  assert (Htr' : truthy (Some kept) = true).
  { destruct kept; [now destruct Hne | reflexivity]. }
  apply (times_invariant
           (fun l => nth_error l (Z.to_nat idx) = nth_error data (Z.to_nat idx)));
    [|reflexivity].
  intros a t0 a' t0' Ha Hround.
  unfold flip_round in Hround. rewrite Htr' in Hround.
  apply rbind_Ok in Hround as (targetbyte & t1 & Htarget & Hflips).
  apply choice_Ok in Htarget.
  apply filter_mask_inside in Htarget as [Hin Hrange].
  apply flip_bits_other with (k := Z.to_nat idx) in Hflips; [congruence|lia|].
  intros Heq. assert (targetbyte = idx) by lia. subst targetbyte.
  destruct Hout; [contradiction | lia].
Qed.

Lemma flipbits_mask_only_witness :
  getitem [xff; xdb; x01; x02] 3 = getitem [xff; xdb; x00; x02] 3.
Proof.
  apply (flipbits_mask_only [xff; xdb; x00; x02] 1 1 1 [2; 7] [0; 0]
           [xff; xdb; x01; x02] []);
    [lia | discriminate | reflexivity | lia | left; simpl; lia].
Defined.

(** A mask of which the filter of line 447 keeps nothing counts for
    nothing: the call does what the call without a mask does, and
    flips from [skipfirstbytes] on. *)
Theorem flipbits_mask_outside_ignored (data : bytes)
  (howmanytimes howmanybits skipfirstbytes : Z) (mask : list Z) (t : tape) :
  filter_mask mask skipfirstbytes data = [] ->
  flipbits data howmanytimes howmanybits skipfirstbytes (Some mask) t
  = flipbits data howmanytimes howmanybits skipfirstbytes None t.
Proof.
  intros Hnone. unfold flipbits.
  destruct mask as [|index mask]; [reflexivity|].
  cbn [truthy option_map]. rewrite Hnone. reflexivity.
Qed.

Lemma flipbits_mask_outside_ignored_witness :
  flipbits [xff; xdb; x00; x02] 1 1 2 (Some [0; 1; 2]) [1; 0]
  = flipbits [xff; xdb; x00; x02] 1 1 2 None [1; 0].
Proof.
  apply (flipbits_mask_outside_ignored [xff; xdb; x00; x02] 1 1 2 [0; 1; 2] [1; 0]).
  reflexivity.
Defined.

(** *** The exceptions of flipbits without a mask *)

Lemma times_raises_kept {A} (P : A -> Prop) (Q : exn -> Prop) (n : nat)
  (body : A -> rand A) :
  (forall a t a' t', P a -> body a t = Ok (a', t') -> P a') ->
  (forall a t e, P a -> body a t = Raise e -> Q e) ->
  forall a t e, P a -> times n body a t = Raise e -> Q e.
Proof.
  intros Hkeep Hraise. induction n as [|n IH]; intros a t e Ha H; simpl in H.
  - discriminate.
  - apply rbind_Raise in H as [H | (a1 & t1 & H1 & H)]; eauto.
Qed.

Lemma flipbits_no_mask_raises data howmanytimes howmanybits skipfirstbytes t e :
  0 <= skipfirstbytes ->
  flipbits data howmanytimes howmanybits skipfirstbytes None t = Raise e ->
  e = ValueError EmptyRange /\ len data <= skipfirstbytes.
Proof.
  intros Hskip. unfold flipbits. cbn [truthy].
  apply (times_raises_kept
           (fun l => length l = length data)
           (fun x => x = ValueError EmptyRange /\ len data <= skipfirstbytes));
    [| |reflexivity].
  - intros a t0 a' t0' Ha Hround. apply flip_round_length in Hround. congruence.
  - intros a t0 e0 Ha Hround. unfold flip_round in Hround. cbn [truthy] in Hround.
    apply rbind_Raise in Hround as [Hr | (targetbyte & t1 & Hr & Hflips)].
    + split; [now apply randint_raises in Hr|].
      destruct (Z.le_gt_cases (len data) skipfirstbytes); [assumption|].
      destruct (randint_returns skipfirstbytes (len data - 1) t0)
        as (r & t' & Hok & _); [lia | congruence].
    + apply randint_Ok in Hr. exfalso.
      destruct (flip_bits_return targetbyte (Z.to_nat howmanybits) data a t1)
        as (out & t' & Hok & _); [lia | exact Ha | congruence].
Qed.

(* ================================================================== *)
(** ** mosh_jpeg_data: further properties *)

(** The piece appended for a quantization-table tuple has the tuple's
    length and its first four bytes, the marker and the length field,
    whatever the mode and the counts. *)
Theorem dqt_header_kept (typ : Z) (qt im : Z * Z) (ret : list bytes)
  (s : segment) (t : tape) (ret' : list bytes) (t' : tape) :
  marker s = DQT ->
  mosh_segment typ qt im ret s t = Ok (ret', t') ->
  exists piece,
    ret' = ret ++ [piece]
    /\ len piece = len (segdata s)
    /\ forall idx, 0 <= idx < 4 ->
                   getitem piece idx = getitem (segdata s) idx.
Proof.
  intros Hm H. unfold mosh_segment in H. rewrite Hm in H.
  change (DQT =? DQT) with true in H. cbv iota in H.
  destruct (negb (Z.land typ 1 =? 0)).
  - apply rbind_Ok in H as (piece & t1 & Hflip & H).
    apply ret_Ok in H as [-> _]. exists piece. split; [reflexivity|]. split.
    + unfold len. f_equal. eapply flipbits_keeps_length. exact Hflip.
    + intros idx Hidx. eapply flipbits_no_mask_skips; eassumption.
  - apply ret_Ok in H as [-> _]. exists (segdata s). auto.
Qed.

Lemma dqt_header_kept_witness :
  exists piece,
    [[xff; xd8]; [xff; xdb; x00; x03; x00; x01]] = [[xff; xd8]] ++ [piece]
    /\ len piece = len [xff; xdb; x00; x03; x00; x00]
    /\ forall idx, 0 <= idx < 4 ->
                   getitem piece idx = getitem [xff; xdb; x00; x03; x00; x00] idx.
Proof.
  apply (dqt_header_kept 1 (1, 1) (0, 0) [[xff; xd8]]
           (mk_segment 0xdb (Text "quantization tables") 5
                       [xff; xdb; x00; x03; x00; x00])
           [1; 0] [[xff; xd8]; [xff; xdb; x00; x03; x00; x01]] []);
    reflexivity.
Defined.

(** *** Corruptions that are idle *)

Lemma flipbits_no_pass data howmanytimes howmanybits skipfirstbytes mask t :
  howmanytimes <= 0 ->
  flipbits data howmanytimes howmanybits skipfirstbytes mask t = Ok (data, t).
Proof.
  intros Hn. unfold flipbits.
  replace (Z.to_nat howmanytimes) with 0%nat by lia. reflexivity.
Qed.

Lemma mosh_segment_idle typ qt im ret s t :
  idle typ 1 qt -> idle typ 2 im ->
  mosh_segment typ qt im ret s t
  = Ok (ret ++ (if stripped s then [] else [segdata s]), t).
Proof.
  intros Hq Hi. unfold mosh_segment, stripped. rewrite !Z.geb_leb.
  destruct (Z.eqb_spec (marker s) DQT) as [Hm|_];
    [|destruct (Z.eqb_spec (marker s) SOS) as [Hm|_]].
  - rewrite Hm. change ((225 <=? DQT) && (DQT <=? 239)) with false. cbv iota.
    destruct (Z.eqb_spec (Z.land typ 1) 0) as [|Hon]; [reflexivity|].
    destruct Hq as [Hoff|Hcount]; [contradiction|].
    change (negb false) with true. unfold Rand.bind. cbv beta iota.
    now rewrite flipbits_no_pass by assumption.
  - rewrite Hm. change ((225 <=? SOS) && (SOS <=? 239)) with false. cbv iota.
    destruct (Z.eqb_spec (Z.land typ 2) 0) as [|Hon]; [reflexivity|].
    destruct Hi as [Hoff|Hcount]; [contradiction|].
    change (negb false) with true. unfold Rand.bind. cbv beta iota.
    now rewrite flipbits_no_pass by assumption.
  - destruct ((225 <=? marker s) && (marker s <=? 239)).
    + unfold Rand.ret. now rewrite app_nil_r.
    + reflexivity.
Qed.

Lemma mosh_segments_idle typ qt im segs ret t :
  idle typ 1 qt -> idle typ 2 im ->
  mosh_segments typ qt im segs ret t = Ok (ret ++ map segdata (kept segs), t).
Proof.
  intros Hq Hi. revert ret.
  induction segs as [|s segs IH]; intros ret; simpl.
  - unfold Rand.ret. now rewrite app_nil_r.
  - unfold Rand.bind. rewrite mosh_segment_idle by assumption.
    rewrite IH. unfold kept. simpl.
    destruct (stripped s); simpl.
    + now rewrite app_nil_r.
    + now rewrite <- app_assoc.
Qed.

(** With both corruptions idle (mode bit off, or a count that is not
    positive), no validation and at least one try, the call returns the
    bytes of the yielded tuples that are not stripped, in order, and
    draws nothing from the generator; it raises what [read_structure]
    raised if that raised. *)
Theorem mosh_idle (decode : bytes -> bool) (jpegdata : bytes) (typ : Z)
  (qt im : Z * Z) (validate_maxtries : Z) (t : tape) :
  idle typ 1 qt -> idle typ 2 im -> 1 <= validate_maxtries ->
  mosh_jpeg_data decode jpegdata typ qt im false validate_maxtries t
  = match how_ended (read_structure jpegdata false) with
    | Raised x => Raise x
    | _ => Ok (reassemble (kept (yielded (read_structure jpegdata false))), t)
    end.
Proof.
  intros Hq Hi Hm. unfold mosh_jpeg_data.
  destruct (Z.to_nat validate_maxtries) as [|n] eqn:E; [lia|].
  rewrite attempts_no_validation. unfold candidate, how_ended, yielded.
  destruct (read_structure jpegdata false) as [segs e]. simpl.
  unfold Rand.bind. rewrite mosh_segments_idle by assumption.
  destruct e; reflexivity.
Qed.

Lemma mosh_idle_witness :
  mosh_jpeg_data (fun _ => true) app1_jpeg 1 (0, 1) (15, 1) false 10 [4; 2]
  = match how_ended (read_structure app1_jpeg false) with
    | Raised x => Raise x
    | _ => Ok (reassemble (kept (yielded (read_structure app1_jpeg false))),
               [4; 2])
    end.
Proof.
  apply (mosh_idle (fun _ => true) app1_jpeg 1 (0, 1) (15, 1) 10 [4; 2]).
  - right. simpl. lia.
  - left. reflexivity.
  - lia.
Defined.

(** *** The size of the result *)

Lemma pieces_length segs pieces :
  Forall2 piece_of segs pieces ->
  (length (concat pieces) <= length (reassemble segs))%nat.
Proof.
  unfold reassemble. induction 1 as [|s piece segs pieces Hp _ IH]; simpl.
  - lia.
  - rewrite !length_app. destruct Hp as (Hstrip & _ & Hlen).
    destruct (stripped s).
    + rewrite (Hstrip eq_refl). simpl. lia.
    + rewrite (Hlen eq_refl). lia.
Qed.

(** What [mosh_jpeg_data] returns is never longer than its input. *)
Theorem mosh_never_grows (decode : bytes -> bool) (jpegdata : bytes)
  (typ : Z) (qt im : Z * Z) (validate : bool) (validate_maxtries : Z)
  (t : tape) (out : bytes) (t' : tape) :
  mosh_jpeg_data decode jpegdata typ qt im validate validate_maxtries t
    = Ok (out, t') ->
  len out <= len jpegdata.
Proof.
  unfold mosh_jpeg_data. intros H.
  apply attempts_returns in H as (t0 & H).
  apply candidate_pieces in H as (pieces & -> & Hall).
  apply pieces_length in Hall.
  pose proof (read_structure_cursor jpegdata false) as Hn.
  rewrite reassemble_prefix in Hall.
  assert (Hs : len (slice jpegdata 0
                      (advance (yielded (read_structure jpegdata false))))
               <= len jpegdata).
  { rewrite len_slice by lia. pose proof (len_nonneg jpegdata). lia. }
  unfold len in *. lia.
Qed.

Lemma mosh_never_grows_witness :
  len [xff; xd8; xff; xfe; x00; x03; x68; xff; xd9] <= len app1_jpeg.
Proof.
  apply (mosh_never_grows (fun _ => true) app1_jpeg 3 (2, 1) (15, 1)
           false 10 [] [xff; xd8; xff; xfe; x00; x03; x68; xff; xd9] []).
  reflexivity.
Defined.

(** *** Validation *)

Lemma attempts_validated decode n jpegdata typ qt im m t out t' :
  attempts decode n jpegdata typ qt im true m t = Ok (out, t') ->
  decode out = true.
Proof.
  revert t. induction n as [|n IH]; intros t H; simpl in H.
  - discriminate.
  - apply rbind_Ok in H as (c & t1 & _ & H). simpl in H.
    destruct (decode c) eqn:Hd.
    + apply ret_Ok in H as [-> _]. exact Hd.
    + eauto.
Qed.

(** With [validate] set, whatever the call returns has been accepted by
    the decoder. *)
Theorem mosh_validated_output (decode : bytes -> bool) (jpegdata : bytes)
  (typ : Z) (qt im : Z * Z) (validate_maxtries : Z)
  (t : tape) (out : bytes) (t' : tape) :
  mosh_jpeg_data decode jpegdata typ qt im true validate_maxtries t
    = Ok (out, t') ->
  decode out = true.
Proof. unfold mosh_jpeg_data. apply attempts_validated. Qed.

Lemma mosh_validated_output_witness :
  bytes_eqb small_jpeg small_jpeg = true.
Proof.
  apply (mosh_validated_output (fun c => bytes_eqb c small_jpeg) small_jpeg
           0 (0, 0) (0, 0) 3 [] small_jpeg []).
  reflexivity.
Defined.

Lemma mosh_no_tries_witness :
  mosh_jpeg_data (fun _ => true) small_jpeg 0 (0, 0) (0, 0) false 0 []
  = Raise (ValueError (NoValidData 0)).
Proof.
  apply (mosh_no_tries (fun _ => true) small_jpeg 0 (0, 0) (0, 0) false 0 []).
  lia.
Defined.

(** *** The exceptions of a call *)

Lemma mosh_segment_raises_short typ qt im ret s t e :
  mosh_segment typ qt im ret s t = Raise e ->
  e = ValueError EmptyRange /\ too_short s.
Proof.
  unfold mosh_segment, too_short.
  destruct (Z.eqb_spec (marker s) DQT) as [Hq|_];
    [|destruct (Z.eqb_spec (marker s) SOS) as [Hs|_]].
  - destruct (negb _); [|discriminate].
    intros H. apply rbind_Raise in H as [H | (c & t1 & _ & H)]; [|discriminate].
    apply flipbits_no_mask_raises in H as [-> Hlen]; [|lia]. auto.
  - destruct (negb _); [|discriminate].
    intros H. apply rbind_Raise in H as [H | (c & t1 & _ & H)]; [|discriminate].
    apply flipbits_no_mask_raises in H as [-> Hlen]; [|lia]. auto.
  - destruct (_ && _); discriminate.
Qed.

Lemma mosh_segments_raises_short typ qt im segs ret t e :
  mosh_segments typ qt im segs ret t = Raise e ->
  e = ValueError EmptyRange /\ exists s, In s segs /\ too_short s.
Proof.
  revert ret t. induction segs as [|s segs IH]; intros ret t H; simpl in H.
  - discriminate.
  - apply rbind_Raise in H as [H | (ret' & t1 & _ & H)].
    + apply mosh_segment_raises_short in H as [-> Hs].
      split; [reflexivity|]. exists s. split; [now left | exact Hs].
    + apply IH in H as [-> (s' & Hin & Hs')].
      split; [reflexivity|]. exists s'. split; [now right | exact Hs'].
Qed.

Lemma candidate_raises_cases jpegdata typ qt im t e :
  candidate jpegdata typ qt im t = Raise e ->
  (e = IndexError
   /\ how_ended (read_structure jpegdata false) = Raised IndexError)
  \/ (e = ValueError EmptyRange
      /\ exists s, In s (yielded (read_structure jpegdata false))
                   /\ too_short s).
Proof.
  unfold candidate, how_ended, yielded.
  pose proof (read_structure_end jpegdata false) as Hend.
  destruct (read_structure jpegdata false) as [segs x]. simpl in *.
  intros H. apply rbind_Raise in H as [H | (ret & t1 & _ & H)].
  - right. now apply mosh_segments_raises_short in H.
  - left. destruct x as [| |x|]; try discriminate.
    unfold raise in H. injection H as <-.
    destruct Hend as [_ Hb]. apply body_raises in Hb. now subst.
Qed.

Lemma attempts_raises_cases decode n jpegdata typ qt im validate m t e :
  attempts decode n jpegdata typ qt im validate m t = Raise e ->
  e = ValueError (NoValidData m)
  \/ exists t0, candidate jpegdata typ qt im t0 = Raise e.
Proof.
  revert t. induction n as [|n IH]; intros t H; simpl in H.
  - unfold raise in H. left. congruence.
  - apply rbind_Raise in H as [H | (c & t1 & _ & H)]; [eauto|].
    destruct (negb validate); [discriminate|].
    destruct (decode c); [discriminate | eauto].
Qed.

(** A call raises one of three things: the [IndexError] with which
    [read_structure] ended; the [ValueError] of [random.randint] on an
    empty range, and then a quantization-table tuple of at most 4 bytes
    or a Start-Of-Scan tuple of at most 20 bytes was yielded; or the
    [ValueError] of its last line. *)
Theorem mosh_exceptions (decode : bytes -> bool) (jpegdata : bytes)
  (typ : Z) (qt im : Z * Z) (validate : bool) (validate_maxtries : Z)
  (t : tape) (e : exn) :
  mosh_jpeg_data decode jpegdata typ qt im validate validate_maxtries t
    = Raise e ->
  (e = IndexError
   /\ how_ended (read_structure jpegdata false) = Raised IndexError)
  \/ (e = ValueError EmptyRange
      /\ exists s, In s (yielded (read_structure jpegdata false))
                   /\ too_short s)
  \/ e = ValueError (NoValidData validate_maxtries).
Proof.
  unfold mosh_jpeg_data. intros H.
  apply attempts_raises_cases in H as [-> | (t0 & H)]; [auto|].
  apply candidate_raises_cases in H as [H | H]; auto.
Qed.

Lemma mosh_exceptions_witness :
  (ValueError EmptyRange = IndexError
   /\ how_ended (read_structure short_scan_jpeg false) = Raised IndexError)
  \/ (ValueError EmptyRange = ValueError EmptyRange
      /\ exists s, In s (yielded (read_structure short_scan_jpeg false))
                   /\ too_short s)
  \/ ValueError EmptyRange = ValueError (NoValidData 10).
Proof.
  apply (mosh_exceptions (fun _ => true) short_scan_jpeg 3 (2, 1) (15, 1)
           false 10 [] (ValueError EmptyRange)).
  reflexivity.
Defined.

(** *** Scans too short to corrupt *)

Lemma flipbits_raises_empty data howmanytimes howmanybits skipfirstbytes t :
  1 <= howmanytimes -> len data <= skipfirstbytes ->
  flipbits data howmanytimes howmanybits skipfirstbytes None t
  = Raise (ValueError EmptyRange).
Proof.
  intros Hn Hshort. unfold flipbits. cbn [truthy].
  destruct (Z.to_nat howmanytimes) as [|n] eqn:E; [lia|].
  simpl. unfold Rand.bind, flip_round at 1, Rand.bind. cbn [truthy].
  unfold randint.
  destruct (Z.ltb_spec 0 (len data - 1 + 1 - skipfirstbytes)); [lia|].
  reflexivity.
Qed.

Lemma mosh_segment_outcome typ qt im ret s t :
  idle typ 1 qt ->
  (exists ret' t', mosh_segment typ qt im ret s t = Ok (ret', t'))
  \/ mosh_segment typ qt im ret s t = Raise (ValueError EmptyRange).
Proof.
  intros Hq. unfold mosh_segment.
  destruct (Z.eqb_spec (marker s) DQT) as [Hm|_];
    [|destruct (Z.eqb_spec (marker s) SOS) as [Hm|_]].
  - left. destruct (Z.eqb_spec (Z.land typ 1) 0) as [|Hon];
      [unfold Rand.ret; simpl; eauto|].
    destruct Hq as [Hoff|Hcount]; [contradiction|].
    change (negb false) with true. unfold Rand.bind. cbv beta iota.
    rewrite flipbits_no_pass by assumption. unfold Rand.ret. eauto.
  - destruct (negb (Z.land typ 2 =? 0)); [|left; unfold Rand.ret; eauto].
    unfold Rand.bind.
    destruct (flipbits (segdata s) (fst im) (snd im) 20 None t)
      as [[c t1]|e] eqn:Hflip.
    + left. unfold Rand.ret. eauto.
    + right. apply flipbits_no_mask_raises in Hflip as [-> _]; [reflexivity|lia].
  - left. destruct (_ && _); unfold Rand.ret; eauto.
Qed.

Lemma mosh_segments_short_scan typ qt im segs s ret t :
  idle typ 1 qt -> Z.land typ 2 <> 0 -> 1 <= fst im ->
  In s segs -> marker s = SOS -> len (segdata s) <= 20 ->
  mosh_segments typ qt im segs ret t = Raise (ValueError EmptyRange).
Proof.
  intros Hq Hon Hcount Hin Hm Hlen. revert ret t.
  induction segs as [|s0 segs IH]; intros ret t; [destruct Hin|].
  simpl. unfold Rand.bind.
  destruct (mosh_segment_outcome typ qt im ret s0 t Hq)
    as [(ret' & t1 & Hok) | Hraise]; [|now rewrite Hraise].
  rewrite Hok. destruct Hin as [->|Hin]; [|now apply IH].
  exfalso. unfold mosh_segment in Hok. rewrite Hm in Hok.
  change (SOS =? DQT) with false in Hok. change (SOS =? SOS) with true in Hok.
  cbv iota in Hok.
  destruct (Z.eqb_spec (Z.land typ 2) 0); [contradiction|].
  change (negb false) with true in Hok. unfold Rand.bind in Hok.
  rewrite flipbits_raises_empty in Hok by assumption. discriminate.
Qed.

(** With the image corruption on with a positive count and the
    quantization corruption idle, a call on data for which a
    Start-Of-Scan tuple of at most 20 bytes is yielded raises the
    [ValueError] of [random.randint], with or without validation, as
    soon as one try is allowed. *)
Theorem mosh_short_scan_raises (decode : bytes -> bool) (jpegdata : bytes)
  (typ : Z) (qt im : Z * Z) (validate : bool) (validate_maxtries : Z)
  (t : tape) (s : segment) :
  idle typ 1 qt -> Z.land typ 2 <> 0 -> 1 <= fst im ->
  1 <= validate_maxtries ->
  In s (yielded (read_structure jpegdata false)) ->
  marker s = SOS -> len (segdata s) <= 20 ->
  mosh_jpeg_data decode jpegdata typ qt im validate validate_maxtries t
  = Raise (ValueError EmptyRange).
Proof.
  intros Hq Hon Hcount Hm Hin Hs Hlen. unfold mosh_jpeg_data.
  destruct (Z.to_nat validate_maxtries) as [|n] eqn:E; [lia|].
  simpl. unfold Rand.bind at 1, candidate.
  unfold yielded in Hin.
  destruct (read_structure jpegdata false) as [segs e]. simpl in Hin.
  unfold Rand.bind.
  now rewrite (mosh_segments_short_scan typ qt im segs s [] t).
Qed.

Lemma mosh_short_scan_raises_witness :
  mosh_jpeg_data (fun _ => true) short_scan_jpeg 2 (2, 1) (15, 1) true 10 [7; 3]
  = Raise (ValueError EmptyRange).
Proof.
  apply (mosh_short_scan_raises (fun _ => true) short_scan_jpeg 2 (2, 1) (15, 1)
           true 10 [7; 3]
           (mk_segment 0xda (Text "start of scan") 7
                       [xff; xda; x00; x02; x00; x11; x22])).
  - left. reflexivity.
  - discriminate.
  - simpl. lia.
  - lia.
  - vm_compute. right. left. reflexivity.
  - reflexivity.
  - vm_compute. discriminate.
Defined.
